(** * asyncio_cache: the LRU cache decorator for coroutines

    A shallow embedding of [asyncio_cache/asyncio_cache.py] and the proofs of
    its specification.

    - Part 1 embeds the closure built by [_lru_cache_wrapper]: the dictionary
      [local_cache], the counters, the [full] flag and the circular doubly
      linked list of links [[prev, next, key, result]] hanging off [root].
      Links are Python lists that alias each other, so they live in a store
      addressed by integers and every field assignment is a store update.
      The three [wrapper] coroutines have one suspension point each, the
      await of the user function. A coroutine is embedded as the code before
      the await and the code after it; what the awaited call produced is an
      argument of the second half, and an exception raised by it leaves the
      coroutine at the await. The key of a call is an argument of both
      halves: the wrapper makes it once, before the lookup.
    - Part 2 says what shape the store has when the links form a ring, and
      what a least-recently-used cache does with a list of keys.
    - Part 3 is the eviction branch one statement at a time.
    - Part 4 embeds [_HashedSeq] and [_make_key].
    - Part 5 has small instances on which the code is run.
    - Part 6 embeds [lru_cache] and [cache] and has runs of the wrapper
      without a cache and of the wrapper without a size limit.

    The proofs follow the definitions: first those of the specification's
    claims (C1 to C10), then further properties of the module (X1 to X17).
    Line numbers are those of [asyncio_cache.py]. *)

From stdpp Require Import gmap list fin_maps strings.
From Stdlib Require Import ZArith Lia.

(** Python's [None] as a value a user function may return and a link may hold. *)
Class PyNone (V : Type) := py_None : V.

(** ** Part 1: the closure of [_lru_cache_wrapper] *)

(** A reference to a link: its index in the store. *)
Abbreviation addr := nat (only parsing).

Section closure.
Context {K : Type} `{Countable K} {V : Type} `{PyNone V} {E : Type}.

(** A link [[prev, next, key, result]]; the projections carry the names of
    the field constants of the source. A key is never [None] (see
    [_make_key]), so [None] in the key field is Python's [None]. *)
Record link := Link {
  link_prev_field : addr;
  link_next_field : addr;
  link_key_field : option K;
  link_result_field : V;
}.

#[global] Instance link_inhabited : Inhabited link :=
  populate (Link 0 0 None py_None).

(** [a[link_prev_field] = p] and its three siblings. *)
Definition set_prev (h : list link) (a p : addr) : list link :=
  let l := h !!! a in
  <[a := Link p (link_next_field l) (link_key_field l) (link_result_field l)]> h.
Definition set_next (h : list link) (a n : addr) : list link :=
  let l := h !!! a in
  <[a := Link (link_prev_field l) n (link_key_field l) (link_result_field l)]> h.
Definition set_key (h : list link) (a : addr) (k : option K) : list link :=
  let l := h !!! a in
  <[a := Link (link_prev_field l) (link_next_field l) k (link_result_field l)]> h.
Definition set_result (h : list link) (a : addr) (r : V) : list link :=
  let l := h !!! a in
  <[a := Link (link_prev_field l) (link_next_field l) (link_key_field l) r]> h.

(** The variables the nested functions close over. [X] is what the
    dictionary holds: results for the unbounded cache, links for the
    bounded one. [maxsize] never changes and is passed on the side. *)
Record closure (X : Type) := Closure {
  local_cache : gmap K X;
  hits : nat;
  misses : nat;
  full : bool;
  root : addr;
  heap : list link;
}.
Arguments Closure {X}.
Arguments local_cache {X}.
Arguments hits {X}.
Arguments misses {X}.
Arguments full {X}.
Arguments root {X}.
Arguments heap {X}.

(** Lines 116-120: an empty dictionary, zeroed counters and a root link
    that points to itself. *)
Definition new_closure {X} : closure X :=
  Closure ∅ 0 0 false 0 [Link 0 0 None py_None].

(** Lines 90-93 of [lru_cache]: a negative [maxsize] is treated as 0. *)
Definition lru_cache_maxsize (maxsize : option Z) : option Z :=
  match maxsize with
  | Some n => if (n <? 0)%Z then Some 0%Z else Some n
  | None => None
  end.

(** Lines 122, 130, 144: which [wrapper] is built. *)
Inductive strategy := Disabled | Unbounded | BoundedLRU (n : Z).

Definition select_strategy (maxsize : option Z) : strategy :=
  match maxsize with
  | Some n => if (n =? 0)%Z then Disabled else BoundedLRU n
  | None => Unbounded
  end.

(** What awaiting the user function produced. *)
Inductive outcome := Returned (result : V) | Raised (e : E).

(** How a call of [wrapper] ends. [KeyError] is the exception of
    [del local_cache[old_key]]. *)
Inductive exn := UserError (e : E) | KeyError.
Inductive reply := Return (result : V) | Raise (e : exn).

(** The first half of a call: either it returns (a hit) or it is suspended
    in the await. *)
Inductive lookup := Hit (result : V) | Await.

(** *** [cache_info] and [cache_clear] (lines 199-209) *)

Record _CacheInfo := CacheInfo {
  ci_hits : nat; ci_misses : nat; ci_maxsize : option Z; ci_currsize : nat }.

Definition cache_info {X} (maxsize : option Z) (c : closure X) : _CacheInfo :=
  CacheInfo (hits c) (misses c) maxsize (size (local_cache c)).

Definition cache_clear {X} (c : closure X) : closure X :=
  let r := root c in
  Closure ∅ 0 0 false r (<[r := Link r r None py_None]> (heap c)).

(** *** [maxsize == 0] (lines 123-128) *)

Definition disabled_call {X} (key : K) (c : closure X) : closure X * lookup :=
  (Closure (local_cache c) (hits c) (S (misses c)) (full c) (root c) (heap c),
   Await).

Definition disabled_resume {X} (key : K) (out : outcome) (c : closure X)
  : closure X * reply :=
  match out with
  | Raised e => (c, Raise (UserError e))
  | Returned result => (c, Return result)
  end.

(** *** [maxsize is None] (lines 131-142) *)

Definition unbounded_call (key : K) (c : closure V) : closure V * lookup :=
  match local_cache c !! key with
  | Some result =>
      (Closure (local_cache c) (S (hits c)) (misses c) (full c) (root c) (heap c),
       Hit result)
  | None =>
      (Closure (local_cache c) (hits c) (S (misses c)) (full c) (root c) (heap c),
       Await)
  end.

Definition unbounded_resume (key : K) (out : outcome) (c : closure V)
  : closure V * reply :=
  match out with
  | Raised e => (c, Raise (UserError e))
  | Returned result =>
      (Closure (<[key := result]> (local_cache c)) (hits c) (misses c) (full c)
         (root c) (heap c),
       Return result)
  end.

(** *** the size limited cache (lines 145-197) *)

(** Lines 148-161. On a hit the link is unlinked and put in front of the
    root; the chained assignment of line 156 stores into [last] first and
    into [root] second. *)
Definition lru_call (key : K) (c : closure addr) : closure addr * lookup :=
  match local_cache c !! key with
  | Some link =>
      let h := heap c in
      let link_prev := link_prev_field (h !!! link) in
      let link_next := link_next_field (h !!! link) in
      let result := link_result_field (h !!! link) in
      let h := set_next h link_prev link_next in
      let h := set_prev h link_next link_prev in
      let last := link_prev_field (h !!! root c) in
      let h := set_next h last link in
      let h := set_prev h (root c) link in
      let h := set_prev h link last in
      let h := set_next h link (root c) in
      (Closure (local_cache c) (S (hits c)) (misses c) (full c) (root c) h,
       Hit result)
  | None =>
      (Closure (local_cache c) (hits c) (S (misses c)) (full c) (root c) (heap c),
       Await)
  end.

(** [del d[old_key]]: the dictionary without the key, or nothing when the
    statement raises [KeyError]. [None] is no key of any dictionary here. *)
Definition dict_del {X} (old_key : option K) (d : gmap K X) : option (gmap K X) :=
  match old_key with
  | Some k => if decide (is_Some (d !! k)) then Some (delete k d) else None
  | None => None
  end.

(** Lines 162-197, entered when the await is over. *)
Definition lru_resume (maxsize : Z) (key : K) (out : outcome) (c : closure addr)
  : closure addr * reply :=
  match out with
  | Raised e => (c, Raise (UserError e))
  | Returned result =>
      if decide (is_Some (local_cache c !! key)) then
        (c, Return result)
      else if full c then
        let old_root := root c in
        let h := set_key (heap c) old_root (Some key) in
        let h := set_result h old_root result in
        let root' := link_next_field (h !!! old_root) in
        let old_key := link_key_field (h !!! root') in
        let h := set_key h root' None in
        let h := set_result h root' py_None in
        match dict_del old_key (local_cache c) with
        | Some cache =>
            (Closure (<[key := old_root]> cache)
               (hits c) (misses c) (full c) root' h,
             Return result)
        | None =>
            (Closure (local_cache c) (hits c) (misses c) (full c) root' h,
             Raise KeyError)
        end
      else
        let last := link_prev_field (heap c !!! root c) in
        let link := length (heap c) in
        let h := heap c ++ [Link last (root c) (Some key) result] in
        let h := set_next h last link in
        let h := set_prev h (root c) link in
        let cache := <[key := link]> (local_cache c) in
        (Closure cache (hits c) (misses c)
           (bool_decide (maxsize ≤ Z.of_nat (size cache))%Z) (root c) h,
         Return result)
  end.

(** *** Runs

    Calls of one wrapper interleave at their awaits only: between two
    awaits the code of a call runs alone. A run is therefore a sequence of
    first halves, second halves and [cache_clear]s in any order. *)
Inductive event :=
| EvCall (key : K)
| EvResume (key : K) (out : outcome)
| EvClear.

Definition lru_step (maxsize : Z) (c : closure addr) (ev : event) : closure addr :=
  match ev with
  | EvCall key => (lru_call key c).1
  | EvResume key out => (lru_resume maxsize key out c).1
  | EvClear => cache_clear c
  end.

Definition lru_run (maxsize : Z) (evs : list event) : closure addr :=
  foldl (lru_step maxsize) new_closure evs.

(** A call that is not interleaved with any other: the lookup and, on a
    miss, the second half with the result of [user_function]. The boolean
    tells a hit from a miss. *)
Definition lru_call_alone (maxsize : Z) (user_function : K → V) (key : K)
    (c : closure addr) : closure addr * (bool * reply) :=
  match lru_call key c with
  | (c', Hit result) => (c', (true, Return result))
  | (c', Await) =>
      let '(c'', r) := lru_resume maxsize key (Returned (user_function key)) c' in
      (c'', (false, r))
  end.

Fixpoint lru_calls_alone (maxsize : Z) (user_function : K → V) (keys : list K)
    (c : closure addr) : closure addr * list (bool * reply) :=
  match keys with
  | [] => (c, [])
  | key :: keys =>
      let '(c', r) := lru_call_alone maxsize user_function key c in
      let '(c'', rs) := lru_calls_alone maxsize user_function keys c' in
      (c'', r :: rs)
  end.

End closure.

Arguments link K V : clear implicits.
Arguments closure K {_ _} V X.
Arguments outcome V E : clear implicits.
Arguments exn E : clear implicits.
Arguments reply V E : clear implicits.
Arguments lookup V : clear implicits.
Arguments event K V E : clear implicits.
Arguments Closure {K _ _ V X}.
Arguments local_cache {K _ _ V X}.
Arguments hits {K _ _ V X}.
Arguments misses {K _ _ V X}.
Arguments full {K _ _ V X}.
Arguments root {K _ _ V X}.
Arguments heap {K _ _ V X}.
Arguments lru_call : simpl never.
Arguments lru_resume : simpl never.
Arguments cache_clear : simpl never.

(** ** Part 2: the shape of the circular list *)

Section ring.
Context {K : Type} `{Countable K} {V : Type} `{PyNone V}.
Implicit Types (h : list (link K V)) (a r : addr).

(** Every two neighbours of the path [xs] point at each other. *)
Fixpoint chain h (xs : list addr) : Prop :=
  match xs with
  | a :: (b :: _) as tl =>
      link_next_field (h !!! a) = b ∧ link_prev_field (h !!! b) = a ∧ chain h tl
  | _ => True
  end.

(** The pairs of neighbours of the path that starts at [s] and goes on
    through [xs]. *)
Fixpoint path_edges (s : addr) (xs : list addr) : list (addr * addr) :=
  match xs with
  | [] => []
  | b :: xs => (s, b) :: path_edges b xs
  end.

(** The pairs of neighbours on the way from [r] through [xs] back to [r]. *)
Definition edges r (xs : list addr) : list (addr * addr) :=
  path_edges r (xs ++ [r]).

(** The links [xs], in this order, are what lies between [r] and [r]:
    the first of [xs] is the oldest link, the last one the newest. *)
Definition ring h r (xs : list addr) : Prop :=
  NoDup (r :: xs) ∧ Forall (λ a, a < length h) (r :: xs) ∧
  chain h (r :: xs ++ [r]).

(** Walking the list from [a] along one field until the root shows up. *)
Fixpoint walk (field : link K V → addr) h r (fuel : nat) a : option (list addr) :=
  if decide (a = r) then Some []
  else match fuel with
       | 0 => None
       | S fuel => (a ::.) <$> walk field h r fuel (field (h !!! a))
       end.

Definition ring_forward {X} (c : closure K V X) : option (list addr) :=
  walk link_next_field (heap c) (root c) (length (heap c))
    (link_next_field (heap c !!! root c)).

Definition ring_backward {X} (c : closure K V X) : option (list addr) :=
  walk link_prev_field (heap c) (root c) (length (heap c))
    (link_prev_field (heap c !!! root c)).

(** The closure holds the entries [ents], oldest first: each is a key of
    the dictionary and the link the dictionary has for it. *)
Definition lru_rep (c : closure K V addr) (ents : list (K * addr)) : Prop :=
  ring (heap c) (root c) ents.*2 ∧
  NoDup ents.*1 ∧
  local_cache c = list_to_map ents ∧
  Forall (λ e, link_key_field (heap c !!! e.2) = Some e.1) ents ∧
  link_key_field (heap c !!! root c) = None.

(** ... and [full] says whether they are [maxsize] many, which is the
    most there can be. *)
Definition lru_state (maxsize : Z) (c : closure K V addr)
    (ents : list (K * addr)) : Prop :=
  lru_rep c ents ∧
  full c = bool_decide (maxsize ≤ Z.of_nat (length ents))%Z ∧
  (Z.of_nat (length ents) ≤ maxsize)%Z.

(** The invariant of the size limited cache. *)
Definition lru_inv (maxsize : Z) (c : closure K V addr) : Prop :=
  ∃ ents, lru_state maxsize c ents.

(** The keys of the cache from the least to the most recently used. *)
Definition lru_order (maxsize : Z) (c : closure K V addr) (ks : list K) : Prop :=
  ∃ ents, lru_state maxsize c ents ∧ ents.*1 = ks.

(** The keys read off the ring, walking from the root along [next]. *)
Definition ring_keys {X} (c : closure K V X) : option (list K) :=
  match ring_forward c with
  | Some xs => mapM (λ a, link_key_field (heap c !!! a)) xs
  | None => None
  end.

(** Ring and dictionary agree: the walk from the root along [next] comes
    back to the root, the walk along [prev] sees the same links in reverse,
    the links on the ring are the values of the dictionary, each under the
    key it holds, and there are as many as the dictionary has keys. *)
Definition ring_index_agree (c : closure K V addr) : Prop :=
  ∃ xs, ring_forward c = Some xs ∧ ring_backward c = Some (reverse xs) ∧
    NoDup xs ∧ (root c ∉ xs) ∧
    length xs = size (local_cache c) ∧
    (∀ a, a ∈ xs ↔ ∃ k, local_cache c !! k = Some a) ∧
    (∀ k a, local_cache c !! k = Some a ↔
            a ∈ xs ∧ link_key_field (heap c !!! a) = Some k) ∧
    link_key_field (heap c !!! root c) = None.

(** *** The cache as a list of keys

    What a least-recently-used cache of [maxsize] keys does with its keys,
    written on the list of keys, oldest first. The wrapper is compared with
    it below. *)
Definition move_to_end (k : K) (ks : list K) : list K :=
  filter (.≠ k) ks ++ [k].

Definition store_key (maxsize : Z) (k : K) (ks : list K) : list K :=
  if decide (k ∈ ks) then ks
  else if decide (Z.of_nat (length ks) < maxsize)%Z then ks ++ [k]
  else tail ks ++ [k].

Definition keys_step {E} (maxsize : Z) (ks : list K) (ev : event K V E) : list K :=
  match ev with
  | EvCall k => if decide (k ∈ ks) then move_to_end k ks else ks
  | EvResume k (Returned _) => store_key maxsize k ks
  | EvResume k (Raised _) => ks
  | EvClear => []
  end.

(** A call that runs alone: a hit moves the key to the end, a miss stores
    the key. [hit_trace] lists which of the calls [keys] are hits. *)
Definition touch (maxsize : Z) (ks : list K) (k : K) : list K :=
  if decide (k ∈ ks) then move_to_end k ks else store_key maxsize k ks.

Fixpoint hit_trace (maxsize : Z) (ks : list K) (keys : list K) : list bool :=
  match keys with
  | [] => []
  | k :: keys => bool_decide (k ∈ ks) :: hit_trace maxsize (touch maxsize ks k) keys
  end.

(** Would a call with [key] be a hit now? *)
Definition is_hit (key : K) (c : closure K V addr) : bool :=
  match (lru_call key c).2 with
  | Hit _ => true
  | Await => false
  end.

End ring.

(** ** Part 3: the eviction branch, statement by statement

    Lines 171-188 once more, one assignment at a time, with the two local
    variables [old_root] and [old_key] of the branch. This is the same code
    as the eviction branch of [lru_resume] ([evict_program_resume] below);
    it is there to say what the closure looks like between two statements,
    which is what a [__del__] sees that runs when a reference count drops
    to zero. *)

Section eviction.
Context {K : Type} `{Countable K} {V : Type} `{PyNone V}.

Record frame := Frame {
  fr_closure : closure K V addr;
  fr_old_root : addr;
  fr_old_key : option K;
}.

Inductive evict_stmt :=
| L171   (* old_root = root *)
| L172   (* old_root[link_key_field] = key *)
| L173   (* old_root[link_result_field] = result *)
| L180   (* root = old_root[link_next_field] *)
| L181   (* old_key = root[link_key_field] *)
| L182a  (* root[link_key_field] = None, the first target of line 182 *)
| L182b  (* root[link_result_field] = None, the second target *)
| L184   (* del local_cache[old_key] *)
| L188.  (* local_cache[key] = old_root *)

Definition with_heap (c : closure K V addr) (h : list (link K V)) : closure K V addr :=
  Closure (local_cache c) (hits c) (misses c) (full c) (root c) h.
Definition with_root (c : closure K V addr) (r : addr) : closure K V addr :=
  Closure (local_cache c) (hits c) (misses c) (full c) r (heap c).
Definition with_cache (c : closure K V addr) (d : gmap K addr) : closure K V addr :=
  Closure d (hits c) (misses c) (full c) (root c) (heap c).

Definition exec_stmt (key : K) (result : V) (fr : frame) (s : evict_stmt) : frame :=
  let c := fr_closure fr in
  let old_root := fr_old_root fr in
  let old_key := fr_old_key fr in
  match s with
  | L171 => Frame c (root c) old_key
  | L172 => Frame (with_heap c (set_key (heap c) old_root (Some key))) old_root old_key
  | L173 => Frame (with_heap c (set_result (heap c) old_root result)) old_root old_key
  | L180 => Frame (with_root c (link_next_field (heap c !!! old_root))) old_root old_key
  | L181 => Frame c old_root (link_key_field (heap c !!! root c))
  | L182a => Frame (with_heap c (set_key (heap c) (root c) None)) old_root old_key
  | L182b => Frame (with_heap c (set_result (heap c) (root c) py_None)) old_root old_key
  | L184 =>
      Frame (with_cache c (default (local_cache c) (dict_del old_key (local_cache c))))
        old_root old_key
  | L188 => Frame (with_cache c (<[key := old_root]> (local_cache c))) old_root old_key
  end.

Definition evict_program : list evict_stmt :=
  [L171; L172; L173; L180; L181; L182a; L182b; L184; L188].

(** The frame after the first [n] statements of the branch. *)
Definition evict_after (n : nat) (key : K) (result : V) (c : closure K V addr) : frame :=
  foldl (exec_stmt key result) (Frame c 0 None) (take n evict_program).

(** How many references to the result [v] there are: one for each link
    that holds it and one for the local variable [result]. *)
Definition result_refs `{EqDecision V} (v : V) (result : V) (fr : frame) : nat :=
  length (filter (λ l, link_result_field l = v) (heap (fr_closure fr))) +
  (if decide (result = v) then 1 else 0).

(** How many references to the key [k] there are: the links that hold it,
    the dictionary, and the local variables [old_key] and [key]. *)
Definition key_refs (k : K) (key : K) (fr : frame) : nat :=
  length (filter (λ l, link_key_field l = Some k) (heap (fr_closure fr))) +
  (if decide (is_Some (local_cache (fr_closure fr) !! k)) then 1 else 0) +
  (if decide (fr_old_key fr = Some k) then 1 else 0) +
  (if decide (key = k) then 1 else 0).

End eviction.

Arguments frame K {_ _} V.

(** ** Part 4: [_HashedSeq] and [_make_key]

    The arguments of a call are Python objects; what the code needs of them
    is [==], [type], the hash of a tuple, the two types [int] and [str], and
    the object in [kwd_mark]. All objects here are hashable, as the
    docstring of [lru_cache] asks of the arguments. *)

Class PyObject (obj : Type) := {
  py_eq : obj → obj → bool;
  py_type : obj → obj;
  py_hash : list obj → Z;
  int_type : obj;
  str_type : obj;
  kwd_mark : obj;
}.

Section make_key.
Context {obj : Type} `{PyObject obj}.

(** A computation that counts how often the hash of a tuple is taken. *)
Definition hashing (A : Type) : Type := nat → A * nat.
Definition hret {A} (a : A) : hashing A := λ n, (a, n).
Definition hbind {A B} (m : hashing A) (f : A → hashing B) : hashing B :=
  λ n, let '(a, n') := m n in f a n'.
Definition hash_tuple (tup : list obj) : hashing Z := λ n, (py_hash tup, S n).

(** Lines 13-31. *)
Record _HashedSeq := HashedSeq { hs_items : list obj; hash_value : Z }.

Definition HashedSeq_init (tup : list obj) : hashing _HashedSeq :=
  hbind (hash_tuple tup) (λ h, hret (HashedSeq tup h)).

Definition HashedSeq_hash (s : _HashedSeq) : hashing Z := hret (hash_value s).

(** [list.__eq__]: same length and equal elements. *)
Fixpoint list_eq (xs ys : list obj) : bool :=
  match xs, ys with
  | [], [] => true
  | x :: xs, y :: ys => py_eq x y && list_eq xs ys
  | _, _ => false
  end.

Definition HashedSeq_eq (s t : _HashedSeq) : bool :=
  list_eq (hs_items s) (hs_items t).

(** What [_make_key] returns: its only argument as it is, or a
    [_HashedSeq]. *)
Inductive cache_key := Bare (v : obj) | Hashed (s : _HashedSeq).

(** [==] on keys. A bare key is an [int] or a [str], which is equal to no
    list. *)
Definition key_eq (a b : cache_key) : bool :=
  match a, b with
  | Bare x, Bare y => py_eq x y
  | Hashed s, Hashed t => HashedSeq_eq s t
  | _, _ => false
  end.

Definition DEFAULT_FAST_TYPES : list obj := [int_type; str_type].

Definition is_fast_type (t : obj) : bool := existsb (py_eq t) DEFAULT_FAST_TYPES.

(** Lines 51-62. [kwds] are the named arguments in the order of the call. *)
Definition _make_key (args : list obj) (kwds : list (obj * obj)) (typed : bool)
  : hashing cache_key :=
  let key := args in
  let key :=
    match kwds with
    | [] => key
    | _ => foldl (λ key item, key ++ [item.1; item.2]) (key ++ [kwd_mark]) kwds
    end in
  if typed then
    let key := key ++ (py_type <$> args) in
    let key :=
      match kwds with
      | [] => key
      | _ => key ++ (py_type <$> kwds.*2)
      end in
    hbind (HashedSeq_init key) (λ s, hret (Hashed s))
  else
    match key with
    | [x] =>
        if is_fast_type (py_type x) then hret (Bare x)
        else hbind (HashedSeq_init key) (λ s, hret (Hashed s))
    | _ => hbind (HashedSeq_init key) (λ s, hret (Hashed s))
    end.

(** *** Words of the specification about keys *)

(** The flat sequence the key is made of. *)
Definition flat_kwds (kwds : list (obj * obj)) : list obj :=
  kwds ≫= λ item, [item.1; item.2].

Definition flat_key (args : list obj) (kwds : list (obj * obj)) (typed : bool)
  : list obj :=
  args ++
  (match kwds with [] => [] | _ => kwd_mark :: flat_kwds kwds end) ++
  (if typed then (py_type <$> args) ++ (py_type <$> kwds.*2) else []).

(** The case of line 60: not typed, no named argument, one argument of a
    fast type. *)
Definition unwrapped (args : list obj) (kwds : list (obj * obj)) (typed : bool) : bool :=
  negb typed &&
  match kwds, args with
  | [], [x] => is_fast_type (py_type x)
  | _, _ => false
  end.

(** Two calls have equal arguments, in value and order ... *)
Definition same_args (args1 args2 : list obj) : Prop :=
  Forall2 (λ x y, py_eq x y = true) args1 args2.
Definition same_kwds (kwds1 kwds2 : list (obj * obj)) : Prop :=
  Forall2 (λ p q, py_eq p.1 q.1 = true ∧ py_eq p.2 q.2 = true) kwds1 kwds2.

(** ... and arguments of equal types. *)
Definition same_types (args1 : list obj) (kwds1 : list (obj * obj))
    (args2 : list obj) (kwds2 : list (obj * obj)) : Prop :=
  same_args (py_type <$> args1) (py_type <$> args2) ∧
  same_args (py_type <$> kwds1.*2) (py_type <$> kwds2.*2).

(** The object in [kwd_mark] is private to [_make_key]: no argument, no
    name and no type is equal to it. *)
Definition mark_free (args : list obj) (kwds : list (obj * obj)) : Prop :=
  ∀ x, x ∈ args ++ flat_kwds kwds ++ (py_type <$> args) ++ (py_type <$> kwds.*2) →
       py_eq kwd_mark x = false ∧ py_eq x kwd_mark = false.

(** The claim of the specification as it is written: keys are equal exactly
    when the arguments are, and in typed mode their types. *)
Definition keys_equal_iff_args_equal : Prop :=
  ∀ args1 kwds1 args2 kwds2 typed n,
    mark_free args1 kwds1 → mark_free args2 kwds2 →
    key_eq (_make_key args1 kwds1 typed n).1 (_make_key args2 kwds2 typed n).1 = true ↔
    same_args args1 args2 ∧ same_kwds kwds1 kwds2 ∧
    (typed = true → same_types args1 kwds1 args2 kwds2).

End make_key.

Arguments _HashedSeq obj : clear implicits.
Arguments cache_key obj : clear implicits.
Arguments keys_equal_iff_args_equal obj {_}.

(** ** Part 5: small instances to run the code on *)

(** Integers as keys and as results; [0] stands in for [None]. *)
#[global] Instance Z_py_None : PyNone Z := 0%Z.

(** A few Python objects: integers, booleans, strings, types and the object
    of [kwd_mark]. As in Python, [True == 1] and [False == 0], and equal
    objects have equal hashes. *)
Inductive small_type := TInt | TBool | TStr | TType | TObject.
Inductive small_obj :=
| OInt (z : Z) | OBool (b : bool) | OStr (s : string) | OType (t : small_type) | OMark.

#[global] Instance small_type_eq_dec : EqDecision small_type.
Proof. solve_decision. Defined.

Definition small_eq (a b : small_obj) : bool :=
  match a, b with
  | OInt x, OInt y => (x =? y)%Z
  | OInt x, OBool y | OBool y, OInt x => (x =? Z.b2z y)%Z
  | OBool x, OBool y => eqb x y
  | OStr x, OStr y => bool_decide (x = y)
  | OType x, OType y => bool_decide (x = y)
  | OMark, OMark => true
  | _, _ => false
  end.

Definition small_type_of (a : small_obj) : small_obj :=
  match a with
  | OInt _ => OType TInt
  | OBool _ => OType TBool
  | OStr _ => OType TStr
  | OType _ => OType TType
  | OMark => OType TObject
  end.

Definition small_hash1 (a : small_obj) : Z :=
  match a with
  | OInt z => z
  | OBool b => Z.b2z b
  | OStr s => Z.of_nat (String.length s)
  | OType TInt => 101 | OType TBool => 102 | OType TStr => 103
  | OType TType => 104 | OType TObject => 105
  | OMark => 7919
  end%Z.

Definition small_hash (tup : list small_obj) : Z :=
  foldr (λ a acc, small_hash1 a + 31 * acc)%Z 17%Z tup.

#[global] Instance small_py : PyObject small_obj := {|
  py_eq := small_eq;
  py_type := small_type_of;
  py_hash := small_hash;
  int_type := OType TInt;
  str_type := OType TStr;
  kwd_mark := OMark;
|}.

(** A user function, and the closure of [lru_cache(maxsize=1)] after a call
    of it with key [1], which returned [10]. *)
Definition times_ten (k : Z) : Z := (10 * k)%Z.

Definition one_entry : closure Z Z addr :=
  (lru_calls_alone (E:=unit) 1 times_ten [1%Z] new_closure).1.

(** ** Part 6: the rest of the module

    [lru_cache] and [cache], runs of the other two wrappers, and what the
    further properties are stated with. *)

(** *** [lru_cache] (lines 65-108) and [cache] (lines 220-222)

    What is passed as [maxsize]: an [int], [None], something callable that is
    no [int], or anything else; and as [typed]: a [bool] or another object,
    of which only the truth value matters. *)
Inductive maxsize_arg := MaxInt (n : Z) | MaxNone | MaxCallable | MaxOther.
Inductive typed_arg := TypedBool (b : bool) | TypedOther (truthy : bool).

(** What [cache_parameters()] of the wrapper returns. *)
Record cache_parameters := CacheParameters {
  cp_maxsize : option Z;
  cp_typed : typed_arg;
}.

(** [lru_cache] returns the wrapper of the function it was given in place of
    [maxsize] (line 99), or [decorating_function], which makes a wrapper of
    whatever it is applied to (line 108), or raises [TypeError] (line 101). *)
Inductive lru_cache_result :=
| Wrapped (p : cache_parameters)
| Decorating (p : cache_parameters)
| RaiseTypeError.

Definition lru_cache (maxsize : maxsize_arg) (typed : typed_arg) : lru_cache_result :=
  match maxsize with
  | MaxInt n => Decorating (CacheParameters (Some (if (n <? 0)%Z then 0%Z else n)) typed)
  | MaxCallable =>
      match typed with
      | TypedBool _ => Wrapped (CacheParameters (Some 128%Z) typed)
      | TypedOther _ => RaiseTypeError
      end
  | MaxNone => Decorating (CacheParameters None typed)
  | MaxOther => RaiseTypeError
  end.

(** [cache(user_function)] is [lru_cache(maxsize=None)(user_function)]. *)
Definition cache : lru_cache_result := lru_cache MaxNone (TypedBool false).

(** The parameters of the wrapper that comes out in the end, if one does. *)
Definition wrapper_parameters (r : lru_cache_result) : option cache_parameters :=
  match r with
  | Wrapped p | Decorating p => Some p
  | RaiseTypeError => None
  end.

Section more.
Context {K : Type} `{Countable K} {V : Type} `{PyNone V} {E : Type}.

(** *** Runs of the wrappers without a size limit and without a cache *)

Definition unbounded_step (c : closure K V V) (ev : event K V E) : closure K V V :=
  match ev with
  | EvCall key => (unbounded_call key c).1
  | EvResume key out => (unbounded_resume key out c).1
  | EvClear => cache_clear c
  end.

Definition unbounded_run (evs : list (event K V E)) : closure K V V :=
  foldl unbounded_step new_closure evs.

Definition disabled_step {X} (c : closure K V X) (ev : event K V E) : closure K V X :=
  match ev with
  | EvCall key => (disabled_call key c).1
  | EvResume key out => (disabled_resume key out c).1
  | EvClear => cache_clear c
  end.

Definition disabled_run {X} (evs : list (event K V E)) : closure K V X :=
  foldl disabled_step new_closure evs.

(** Calls that run alone, as [lru_call_alone] for the size limited cache. *)
Definition unbounded_call_alone (user_function : K → V) (key : K)
    (c : closure K V V) : closure K V V * (bool * reply V E) :=
  match unbounded_call key c with
  | (c', Hit result) => (c', (true, Return result))
  | (c', Await) =>
      let '(c'', r) := unbounded_resume key (Returned (user_function key)) c' in
      (c'', (false, r))
  end.

Fixpoint unbounded_calls_alone (user_function : K → V) (keys : list K)
    (c : closure K V V) : closure K V V * list (bool * reply V E) :=
  match keys with
  | [] => (c, [])
  | key :: keys =>
      let '(c', r) := unbounded_call_alone user_function key c in
      let '(c'', rs) := unbounded_calls_alone user_function keys c' in
      (c'', r :: rs)
  end.

Definition disabled_call_alone {X} (user_function : K → V) (key : K)
    (c : closure K V X) : closure K V X * (bool * reply V E) :=
  match disabled_call key c with
  | (c', Hit result) => (c', (true, Return result))
  | (c', Await) =>
      let '(c'', r) := disabled_resume key (Returned (user_function key)) c' in
      (c'', (false, r))
  end.

Fixpoint disabled_calls_alone {X} (user_function : K → V) (keys : list K)
    (c : closure K V X) : closure K V X * list (bool * reply V E) :=
  match keys with
  | [] => (c, [])
  | key :: keys =>
      let '(c', r) := disabled_call_alone user_function key c in
      let '(c'', rs) := disabled_calls_alone user_function keys c' in
      (c'', r :: rs)
  end.

(** Lines 122, 130 and 144 of [_lru_cache_wrapper]: the wrapper that is built
    for [maxsize], run on calls that come one after the other; what each of
    the calls found and returned. *)
Definition wrapper_calls_alone (maxsize : option Z) (user_function : K → V)
    (keys : list K) : list (bool * reply V E) :=
  match select_strategy maxsize with
  | Disabled => (disabled_calls_alone (X:=unit) user_function keys new_closure).2
  | Unbounded => (unbounded_calls_alone user_function keys new_closure).2
  | BoundedLRU n => (lru_calls_alone n user_function keys new_closure).2
  end.

(** [n] calls with the same key, each begun before any of them resumes. *)
Definition lru_calls_begun (key : K) (n : nat) (c : closure K V addr)
  : closure K V addr :=
  Nat.iter n (λ c, (lru_call key c).1) c.
Definition unbounded_calls_begun (key : K) (n : nat) (c : closure K V V)
  : closure K V V :=
  Nat.iter n (λ c, (unbounded_call key c).1) c.

(** *** What the further properties are stated with *)

(** The number of calls begun since the last [cache_clear]. *)
Definition calls_since_clear (evs : list (event K V E)) : nat :=
  foldl (λ n ev, match ev with
                 | EvCall _ => S n
                 | EvResume _ _ => n
                 | EvClear => 0
                 end) 0 evs.

Definition no_clear (evs : list (event K V E)) : Prop :=
  Forall (λ ev, ev ≠ EvClear) evs.

(** How often [user_function] was awaited by calls that ran alone: once for
    each miss. *)
Definition invocations (rs : list (bool * reply V E)) : nat :=
  length (filter (λ r, r.1 = false) rs).

(** Every link of [ents] holds what [user_function] returns for its key. *)
Definition lru_vals (user_function : K → V) (c : closure K V addr)
    (ents : list (K * addr)) : Prop :=
  Forall (λ e, link_result_field (heap c !!! e.2) = user_function e.1) ents.

End more.

(** * Proofs *)

Section store_facts.
Context {K : Type} `{Countable K} {V : Type} `{PyNone V}.
Implicit Types (h : list (link K V)) (a r : addr).

Lemma length_set_prev h a p : length (set_prev h a p) = length h.
Proof. apply length_insert. Qed.
Lemma length_set_next h a p : length (set_next h a p) = length h.
Proof. apply length_insert. Qed.
Lemma length_set_key h a k : length (set_key h a k) = length h.
Proof. apply length_insert. Qed.
Lemma length_set_result h a v : length (set_result h a v) = length h.
Proof. apply length_insert. Qed.

Local Ltac untouched h a b :=
  destruct (decide (a < length h));
  [ destruct (decide (a = b)) as [->|];
    [ by rewrite list_lookup_total_insert_eq
    | by rewrite list_lookup_total_insert_ne ]
  | by rewrite list_insert_ge by lia ].

Local Ltac touched h a b :=
  intros; case_decide; subst;
  [ by rewrite list_lookup_total_insert_eq
  | by rewrite list_lookup_total_insert_ne ].

Lemma prev_set_prev h a p b :
  a < length h →
  link_prev_field (set_prev h a p !!! b) =
    if decide (b = a) then p else link_prev_field (h !!! b).
Proof. unfold set_prev. touched h a b. Qed.
Lemma next_set_prev h a p b :
  link_next_field (set_prev h a p !!! b) = link_next_field (h !!! b).
Proof. unfold set_prev. untouched h a b. Qed.
Lemma key_set_prev h a p b :
  link_key_field (set_prev h a p !!! b) = link_key_field (h !!! b).
Proof. unfold set_prev. untouched h a b. Qed.
Lemma result_set_prev h a p b :
  link_result_field (set_prev h a p !!! b) = link_result_field (h !!! b).
Proof. unfold set_prev. untouched h a b. Qed.

Lemma next_set_next h a n b :
  a < length h →
  link_next_field (set_next h a n !!! b) =
    if decide (b = a) then n else link_next_field (h !!! b).
Proof. unfold set_next. touched h a b. Qed.
Lemma prev_set_next h a n b :
  link_prev_field (set_next h a n !!! b) = link_prev_field (h !!! b).
Proof. unfold set_next. untouched h a b. Qed.
Lemma key_set_next h a n b :
  link_key_field (set_next h a n !!! b) = link_key_field (h !!! b).
Proof. unfold set_next. untouched h a b. Qed.
Lemma result_set_next h a n b :
  link_result_field (set_next h a n !!! b) = link_result_field (h !!! b).
Proof. unfold set_next. untouched h a b. Qed.

Lemma key_set_key h a k b :
  a < length h →
  link_key_field (set_key h a k !!! b) =
    if decide (b = a) then k else link_key_field (h !!! b).
Proof. unfold set_key. touched h a b. Qed.
Lemma prev_set_key h a k b :
  link_prev_field (set_key h a k !!! b) = link_prev_field (h !!! b).
Proof. unfold set_key. untouched h a b. Qed.
Lemma next_set_key h a k b :
  link_next_field (set_key h a k !!! b) = link_next_field (h !!! b).
Proof. unfold set_key. untouched h a b. Qed.
Lemma result_set_key h a k b :
  link_result_field (set_key h a k !!! b) = link_result_field (h !!! b).
Proof. unfold set_key. untouched h a b. Qed.

Lemma result_set_result h a v b :
  a < length h →
  link_result_field (set_result h a v !!! b) =
    if decide (b = a) then v else link_result_field (h !!! b).
Proof. unfold set_result. touched h a b. Qed.
Lemma prev_set_result h a v b :
  link_prev_field (set_result h a v !!! b) = link_prev_field (h !!! b).
Proof. unfold set_result. untouched h a b. Qed.
Lemma next_set_result h a v b :
  link_next_field (set_result h a v !!! b) = link_next_field (h !!! b).
Proof. unfold set_result. untouched h a b. Qed.
Lemma key_set_result h a v b :
  link_key_field (set_result h a v !!! b) = link_key_field (h !!! b).
Proof. unfold set_result. untouched h a b. Qed.

End store_facts.

Create Rewrite HintDb store.
#[global] Hint Rewrite @length_set_prev @length_set_next @length_set_key
  @length_set_result : store.
#[global] Hint Rewrite @next_set_prev @key_set_prev @result_set_prev
  @prev_set_next @key_set_next @result_set_next
  @prev_set_key @next_set_key @result_set_key
  @prev_set_result @next_set_result @key_set_result : store.
#[global] Hint Rewrite @prev_set_prev @next_set_next @key_set_key
  @result_set_result using (autorewrite with store; lia) : store.

Section ring_facts.
Context {K : Type} `{Countable K} {V : Type} `{PyNone V}.
Implicit Types (h : list (link K V)) (a r : addr).

(** *** Paths and their edges *)

Lemma chain_edges h s xs :
  chain h (s :: xs) ↔
  ∀ a b, (a, b) ∈ path_edges s xs →
         link_next_field (h !!! a) = b ∧ link_prev_field (h !!! b) = a.
Proof.
  revert s. induction xs as [|x xs IH]; intros s.
  - split; [|done]. intros _ a b Hin. by apply elem_of_nil in Hin.
  - change (chain h (s :: x :: xs)) with
      (link_next_field (h !!! s) = x ∧ link_prev_field (h !!! x) = s ∧
       chain h (x :: xs)).
    rewrite IH. simpl. split.
    + intros (Hn & Hp & Hrest) a b [Heq|Hin]%elem_of_cons.
      * by injection Heq as -> ->.
      * by apply Hrest.
    + intros Hall. split_and!.
      * apply (Hall s x). left.
      * apply (Hall s x). left.
      * intros a b Hin. apply Hall. by right.
Qed.

Lemma path_edges_app s xs ys :
  path_edges s (xs ++ ys) = path_edges s xs ++ path_edges (default s (last xs)) ys.
Proof.
  revert s. induction xs as [|x xs IH]; intros s; [done|].
  simpl. rewrite IH. do 2 f_equal. rewrite last_cons. by destruct (last xs).
Qed.

Lemma path_edges_elem s xs a b :
  (a, b) ∈ path_edges s xs → a ∈ s :: xs ∧ b ∈ xs.
Proof.
  revert s. induction xs as [|x xs IH]; intros s; simpl.
  - by intros ?%elem_of_nil.
  - intros [Heq|Hin]%elem_of_cons.
    + injection Heq as -> ->. split; [left|left].
    + apply IH in Hin as [? ?]. split; by right.
Qed.

Lemma path_edges_target s xs b :
  b ∈ xs → ∃ a, (a, b) ∈ path_edges s xs.
Proof.
  revert s. induction xs as [|x xs IH]; intros s; [by intros ?%elem_of_nil|].
  intros [->|Hin]%elem_of_cons; simpl.
  - exists s. left.
  - destruct (IH x Hin) as [a Ha]. exists a. by right.
Qed.

Lemma path_edges_source s xs y a :
  a ∈ s :: xs → ∃ b, (a, b) ∈ path_edges s (xs ++ [y]).
Proof.
  revert s. induction xs as [|x xs IH]; intros s.
  - intros ->%list_elem_of_singleton. exists y. left.
  - intros [->|Hin]%elem_of_cons; simpl.
    + exists x. left.
    + destruct (IH x Hin) as [b Hb]. exists b. by right.
Qed.

(** *** The ring *)

Lemma ring_edges h r xs :
  ring h r xs ↔
  NoDup (r :: xs) ∧ Forall (λ a, a < length h) (r :: xs) ∧
  ∀ a b, (a, b) ∈ edges r xs →
         link_next_field (h !!! a) = b ∧ link_prev_field (h !!! b) = a.
Proof. unfold ring, edges. by rewrite chain_edges. Qed.

Lemma edges_elem r xs a b :
  (a, b) ∈ edges r xs → a ∈ r :: xs ∧ b ∈ r :: xs.
Proof.
  intros [Ha Hb]%path_edges_elem. split.
  - rewrite app_comm_cons in Ha. apply elem_of_app in Ha as [?|Ha]; [done|].
    apply list_elem_of_singleton in Ha as ->. left.
  - apply elem_of_app in Hb as [?|Hb]; [by right|].
    apply list_elem_of_singleton in Hb as ->. left.
Qed.

Lemma ring_lt h r xs a : ring h r xs → a ∈ r :: xs → a < length h.
Proof. intros (_ & Hlt & _) Hin. by eapply Forall_forall in Hlt. Qed.

Lemma ring_prev_edge h r xs a :
  ring h r xs → a ∈ r :: xs → (link_prev_field (h !!! a), a) ∈ edges r xs.
Proof.
  intros Hring Hin. destruct (proj1 (ring_edges _ _ _) Hring) as (_ & _ & Hch).
  assert (a ∈ xs ++ [r]) as Hin'.
  { apply elem_of_cons in Hin as [->|?]; apply elem_of_app; [right|left]; [|done].
    apply list_elem_of_singleton; done. }
  destruct (path_edges_target r _ _ Hin') as [p Hp].
  by destruct (Hch _ _ Hp) as [_ ->].
Qed.

Lemma ring_next_edge h r xs a :
  ring h r xs → a ∈ r :: xs → (a, link_next_field (h !!! a)) ∈ edges r xs.
Proof.
  intros Hring Hin. destruct (proj1 (ring_edges _ _ _) Hring) as (_ & _ & Hch).
  destruct (path_edges_source r xs r a Hin) as [n Hn].
  by destruct (Hch _ _ Hn) as [-> _].
Qed.

Lemma ring_prev_in h r xs a :
  ring h r xs → a ∈ r :: xs → link_prev_field (h !!! a) ∈ r :: xs.
Proof. intros Hr Hin. by apply (ring_prev_edge _ _ _ _ Hr), edges_elem in Hin as [? _]. Qed.

Lemma ring_next_in h r xs a :
  ring h r xs → a ∈ r :: xs → link_next_field (h !!! a) ∈ r :: xs.
Proof. intros Hr Hin. by apply (ring_next_edge _ _ _ _ Hr), edges_elem in Hin as [_ ?]. Qed.

(** What the edges become when a link leaves the ring, when one is added
    in front of the root, and when the root moves one link on. *)

Lemma edges_unlink r l1 x l2 a b :
  (a, b) ∈ edges r (l1 ++ l2) →
  (a, b) ∈ edges r (l1 ++ x :: l2) ∨
  ((a, x) ∈ edges r (l1 ++ x :: l2) ∧ (x, b) ∈ edges r (l1 ++ x :: l2)).
Proof.
  unfold edges. rewrite <-!(assoc_L (++)). simpl.
  assert (∃ n t, l2 ++ [r] = n :: t) as (n & t & ->).
  { destruct l2; simpl; eauto. }
  rewrite (path_edges_app r l1 (n :: t)), (path_edges_app r l1 (x :: n :: t)).
  set (lp := default r (last l1)). simpl.
  rewrite !elem_of_app, !elem_of_cons.
  intros [?|[Heq|?]]; [by left; left| |by left; right; right; right].
  injection Heq as -> ->. right.
  split; [right; by left|right; right; by left].
Qed.

Lemma edges_push_back r xs x a b :
  (a, b) ∈ edges r (xs ++ [x]) →
  ((a, b) ∈ edges r xs ∧ b ∈ xs) ∨
  ((a, r) ∈ edges r xs ∧ b = x) ∨
  (a = x ∧ b = r).
Proof.
  unfold edges. rewrite <-(assoc_L (++)). simpl.
  rewrite (path_edges_app r xs [x; r]), (path_edges_app r xs [r]). simpl.
  rewrite !elem_of_app, !elem_of_cons.
  intros [Hin|[Heq|[Heq|Hin]]].
  - left. split; [by left|]. by apply path_edges_elem in Hin as [_ ?].
  - injection Heq as -> ->. right; left. split; [|done]. right. by left.
  - injection Heq as -> ->. by right; right.
  - by apply elem_of_nil in Hin.
Qed.

Lemma edges_rotate r o xs a b :
  (a, b) ∈ edges o (xs ++ [r]) ↔ (a, b) ∈ edges r (o :: xs).
Proof.
  unfold edges. rewrite <-(assoc_L (++)). simpl.
  rewrite (path_edges_app o xs [r; o]), (path_edges_app o xs [r]). simpl.
  rewrite !elem_of_cons, !elem_of_app, !elem_of_cons, !elem_of_nil.
  tauto.
Qed.

(** *** The ring under the assignments of the wrapper *)

Lemma ring_frame h h' r xs :
  ring h r xs → length h ≤ length h' →
  (∀ a, a ∈ r :: xs →
        link_next_field (h' !!! a) = link_next_field (h !!! a) ∧
        link_prev_field (h' !!! a) = link_prev_field (h !!! a)) →
  ring h' r xs.
Proof.
  rewrite !ring_edges. intros (Hnd & Hlt & Hch) Hlen Hsame. split_and!; [done| |].
  - eapply Forall_impl; [done|]. simpl. lia.
  - intros a b Hin. destruct (edges_elem _ _ _ _ Hin) as [Ha Hb].
    destruct (Hsame a Ha) as [-> _], (Hsame b Hb) as [_ ->]. by apply Hch.
Qed.

(** Lines 153-154: [link_prev[next] = link_next; link_next[prev] = link_prev]. *)
Lemma ring_unlink h r l1 x l2 :
  ring h r (l1 ++ x :: l2) →
  let link_prev := link_prev_field (h !!! x) in
  let link_next := link_next_field (h !!! x) in
  ring (set_prev (set_next h link_prev link_next) link_next link_prev) r (l1 ++ l2).
Proof.
  intros Hring lp ln. destruct (proj1 (ring_edges _ _ _) Hring) as (Hnd & Hlt & Hch).
  assert (x ∈ r :: l1 ++ x :: l2) as Hx.
  { right. apply elem_of_app. right. left. }
  pose proof (ring_prev_edge _ _ _ _ Hring Hx) as Hpe.
  pose proof (ring_next_edge _ _ _ _ Hring Hx) as Hne.
  assert (link_prev_field (h !!! x) = lp) as Hlp_eq by done.
  assert (link_next_field (h !!! x) = ln) as Hln_eq by done.
  rewrite Hlp_eq in Hpe. rewrite Hln_eq in Hne. clearbody lp ln.
  assert (lp < length h) as Hlp.
  { eapply ring_lt; [done|]. by apply edges_elem in Hpe as [? _]. }
  assert (ln < length h) as Hln.
  { eapply ring_lt; [done|]. by apply edges_elem in Hne as [_ ?]. }
  assert (x ∉ r :: l1 ++ l2) as Hfresh.
  { rewrite app_comm_cons in Hnd. apply NoDup_app in Hnd as (_ & Hd & Hnd).
    apply NoDup_cons in Hnd as [? _]. rewrite app_comm_cons.
    intros [Hin|Hin]%elem_of_app; [|done]. apply (Hd _ Hin). left. }
  apply ring_edges. split_and!.
  - rewrite app_comm_cons in Hnd |- *.
    apply NoDup_app in Hnd as (? & Hd & [_ ?]%NoDup_cons).
    apply NoDup_app. split_and!; [done| |done].
    intros a Ha Hb. apply (Hd a Ha). by right.
  - rewrite length_set_prev, length_set_next.
    rewrite app_comm_cons in Hlt |- *.
    apply Forall_app in Hlt as (? & [_ ?]%Forall_cons). by apply Forall_app.
  - intros a b Hin.
    rewrite next_set_prev, next_set_next by done.
    rewrite prev_set_prev, prev_set_next by (by rewrite length_set_next).
    pose proof (edges_elem _ _ _ _ Hin) as [Ha Hb].
    assert (a ≠ x) by (by intros ->). assert (b ≠ x) by (by intros ->).
    destruct (edges_unlink _ _ x _ _ _ Hin) as [Hold|[Ha' Hb']].
    + destruct (Hch _ _ Hold) as [Hn Hp].
      destruct (Hch _ _ Hpe) as [Hn' _]. destruct (Hch _ _ Hne) as [_ Hp'].
      repeat case_decide; first [done|congruence].
    + destruct (Hch _ _ Ha') as [_ Hp]. destruct (Hch _ _ Hb') as [Hn _].
      rewrite !decide_True by congruence. split; congruence.
Qed.

(** A link [x] that is not on the ring is put between the last link and
    the root, by any store [h'] that has the four new pointers and keeps
    the others. This is what lines 155-158 and lines 191-193 do. *)
Lemma ring_push_back h h' r xs x :
  ring h r xs → x ∉ r :: xs → x < length h' → length h ≤ length h' →
  let last := link_prev_field (h !!! r) in
  link_next_field (h' !!! last) = x → link_prev_field (h' !!! r) = x →
  link_prev_field (h' !!! x) = last → link_next_field (h' !!! x) = r →
  (∀ a, a ∈ r :: xs → a ≠ last →
        link_next_field (h' !!! a) = link_next_field (h !!! a)) →
  (∀ a, a ∈ xs → link_prev_field (h' !!! a) = link_prev_field (h !!! a)) →
  ring h' r (xs ++ [x]).
Proof.
  intros Hring Hfresh Hx Hlen last Hn_last Hp_r Hp_x Hn_x Hnext Hprev.
  destruct (proj1 (ring_edges _ _ _) Hring) as (Hnd & Hlt & Hch).
  assert (r ∈ r :: xs) as Hr by left.
  pose proof (ring_prev_edge _ _ _ _ Hring Hr) as Hlast. fold last in Hlast.
  apply ring_edges. split_and!.
  - rewrite app_comm_cons. apply NoDup_app. split_and!; [done| |apply NoDup_singleton].
    by intros a Ha ->%list_elem_of_singleton.
  - rewrite app_comm_cons. apply Forall_app. split.
    + eapply Forall_impl; [done|]. simpl. lia.
    + by apply Forall_singleton.
  - intros a b Hin.
    destruct (edges_push_back _ _ _ _ _ Hin) as [[Hold Hb]|[[Hold ->]|[-> ->]]].
    + destruct (Hch _ _ Hold) as [Hn Hp]. destruct (Hch _ _ Hlast) as [Hn' _].
      rewrite Hprev by done. rewrite Hnext; [done| |].
      * by apply edges_elem in Hold as [? _].
      * intros ->. apply NoDup_cons in Hnd as [Hnr _]. congruence.
    + destruct (Hch _ _ Hold) as [_ Hp]. fold last in Hp. by subst a.
    + done.
Qed.

(** Line 180: [root = old_root[next]]. The links stay as they are, the
    oldest link becomes the root and the old root the newest link. *)
Lemma ring_rotate h r o xs : ring h r (o :: xs) → ring h o (xs ++ [r]).
Proof.
  rewrite !ring_edges. intros (Hnd & Hlt & Hch).
  assert (o :: xs ++ [r] ≡ₚ r :: o :: xs) as Hperm.
  { rewrite app_comm_cons. by rewrite Permutation_app_comm. }
  split_and!.
  - by rewrite Hperm.
  - by rewrite Hperm.
  - intros a b Hin. by apply Hch, edges_rotate.
Qed.

(** Line 207: [root[:] = [root, root, None, None]]. *)
Lemma ring_reset h r :
  r < length h → ring (<[r := Link r r None py_None]> h) r [].
Proof.
  intros Hr. split_and!.
  - apply NoDup_singleton.
  - apply Forall_singleton. by rewrite length_insert.
  - simpl. by rewrite list_lookup_total_insert_eq.
Qed.

(** Lines 153-158, the whole move of a link to the front. *)
Lemma ring_move_to_front h r l1 x l2 :
  ring h r (l1 ++ x :: l2) →
  let link_prev := link_prev_field (h !!! x) in
  let link_next := link_next_field (h !!! x) in
  let h := set_next h link_prev link_next in
  let h := set_prev h link_next link_prev in
  let last := link_prev_field (h !!! r) in
  let h := set_next h last x in
  let h := set_prev h r x in
  let h := set_prev h x last in
  let h := set_next h x r in
  ring h r (l1 ++ l2 ++ [x]).
Proof.
  intros Hring lp ln h1 h2 last h3 h4 h5 h6.
  pose proof (ring_unlink _ _ _ _ _ Hring) as Hring2. simpl in Hring2.
  fold lp ln h1 h2 in Hring2.
  destruct Hring as (Hnd & Hlt & _).
  assert (x ∉ r :: l1 ++ l2) as Hfresh.
  { rewrite app_comm_cons in Hnd. apply NoDup_app in Hnd as (_ & Hd & Hnd).
    apply NoDup_cons in Hnd as [? _]. rewrite app_comm_cons.
    intros [Hin|Hin]%elem_of_app; [|done]. apply (Hd _ Hin). left. }
  assert (x < length h) as Hx.
  { eapply Forall_forall in Hlt; [done|]. right. apply elem_of_app. right. left. }
  assert (length h2 = length h) as Hlen2.
  { unfold h2, h1. by rewrite length_set_prev, length_set_next. }
  assert (r < length h2) as Hr by (eapply ring_lt; [done|left]).
  assert (last ∈ r :: l1 ++ l2) as Hlast_in by (eapply ring_prev_in; [done|left]).
  assert (last < length h2) as Hlast by (by eapply ring_lt).
  assert (last ≠ x) as Hlx.
  { intros Heq. apply Hfresh. by rewrite <-Heq. }
  assert (r ≠ x) as Hrx by (intros ->; apply Hfresh; left).
  rewrite (assoc_L (++)).
  apply (ring_push_back h2); try done; fold last; unfold h6, h5, h4, h3.
  all: try (autorewrite with store; first [lia|by repeat case_decide]).
  - intros a Ha Hal. autorewrite with store.
    rewrite !decide_False; [done|done|]. by intros ->.
  - intros a Ha. autorewrite with store. rewrite !decide_False; [done| |].
    + intros ->. apply NoDup_cons in Hnd as [Hnr _]. apply Hnr.
      apply elem_of_app in Ha as [?|?]; apply elem_of_app; [by left|by right; right].
    + intros ->. apply Hfresh. by right.
Qed.

(** *** Walking the ring *)

Lemma chain_snoc h ys a b :
  chain h (ys ++ [a; b]) ↔
  chain h (ys ++ [a]) ∧
  link_next_field (h !!! a) = b ∧ link_prev_field (h !!! b) = a.
Proof.
  destruct ys as [|s ys]; [simpl; tauto|].
  rewrite <-!app_comm_cons, !chain_edges.
  replace (ys ++ [a; b]) with ((ys ++ [a]) ++ [b]) by (by rewrite <-(assoc_L (++))).
  rewrite (path_edges_app s (ys ++ [a]) [b]), last_snoc. simpl. split.
  - intros Hall. split.
    + intros x y Hin. apply Hall, elem_of_app. by left.
    + apply Hall, elem_of_app. right. left.
  - intros [Hall Hab] x y [Hin|Hin]%elem_of_app; [by apply Hall|].
    apply list_elem_of_singleton in Hin. by injection Hin as -> ->.
Qed.

Lemma walk_root (field : link K V → addr) h r fuel :
  walk field h r fuel r = Some [].
Proof. destruct fuel; simpl; by rewrite decide_True. Qed.

Lemma walk_next h r xs p fuel :
  chain h (p :: xs ++ [r]) → r ∉ xs → length xs ≤ fuel →
  walk link_next_field h r fuel (link_next_field (h !!! p)) = Some xs.
Proof.
  revert p fuel. induction xs as [|x xs IH]; intros p fuel Hch Hr Hfuel.
  - destruct Hch as (-> & _). destruct fuel; simpl; by rewrite decide_True.
  - destruct Hch as (-> & _ & Hch). simpl in Hfuel.
    destruct fuel as [|fuel]; [lia|]. simpl.
    rewrite decide_False by (intros ->; apply Hr; left).
    rewrite IH; [done|done| |lia]. intros ?. apply Hr. by right.
Qed.

Lemma walk_prev h r xs p fuel :
  chain h (r :: xs ++ [p]) → r ∉ xs → length xs ≤ fuel →
  walk link_prev_field h r fuel (link_prev_field (h !!! p)) = Some (reverse xs).
Proof.
  revert p fuel. induction xs as [|x xs IH] using rev_ind; intros p fuel Hch Hr Hfuel.
  - destruct Hch as (_ & -> & _). destruct fuel; simpl; by rewrite decide_True.
  - rewrite <-(assoc_L (++)) in Hch.
    apply (chain_snoc h (r :: xs) x p) in Hch as (Hch & _ & ->).
    rewrite length_app in Hfuel. simpl in Hfuel.
    destruct fuel as [|fuel]; [lia|]. simpl.
    rewrite decide_False by (intros ->; apply Hr, elem_of_app; right; left).
    rewrite reverse_snoc, IH; [done|done| |lia].
    intros ?. apply Hr, elem_of_app. by left.
Qed.

Lemma NoDup_lt_length (l : list nat) n :
  NoDup l → Forall (λ a, a < n) l → length l ≤ n.
Proof.
  intros Hnd Hlt. trans (length (seq 0 n)); [|by rewrite length_seq].
  apply submseteq_length.
  apply NoDup_submseteq; [done|]. intros a Ha.
  apply elem_of_seq. eapply Forall_forall in Hlt; [|done]. lia.
Qed.

Lemma ring_walk_forward h r xs :
  ring h r xs →
  walk link_next_field h r (length h) (link_next_field (h !!! r)) = Some xs.
Proof.
  intros (Hnd & Hlt & Hch). apply walk_next; [done| |].
  - by apply NoDup_cons in Hnd as [? _].
  - pose proof (NoDup_lt_length _ _ Hnd Hlt) as Hlen. simpl in Hlen. lia.
Qed.

Lemma ring_walk_backward h r xs :
  ring h r xs →
  walk link_prev_field h r (length h) (link_prev_field (h !!! r)) =
    Some (reverse xs).
Proof.
  intros (Hnd & Hlt & Hch). apply walk_prev; [done| |].
  - by apply NoDup_cons in Hnd as [? _].
  - pose proof (NoDup_lt_length _ _ Hnd Hlt) as Hlen. simpl in Hlen. lia.
Qed.

End ring_facts.


Section rep_facts.
Context {K : Type} `{Countable K} {V : Type} `{PyNone V} {E : Type}.
Implicit Types (c : closure K V addr) (ents : list (K * addr)) (k key : K).

Lemma lru_rep_lookup c ents k a :
  lru_rep c ents → local_cache c !! k = Some a ↔ (k, a) ∈ ents.
Proof.
  intros (_ & Hnd & -> & _). symmetry. by apply elem_of_list_to_map.
Qed.

Lemma lru_rep_lookup_None c ents k :
  lru_rep c ents → local_cache c !! k = None ↔ k ∉ ents.*1.
Proof. intros (_ & _ & -> & _). symmetry. apply not_elem_of_list_to_map. Qed.

Lemma lru_rep_size c ents : lru_rep c ents → size (local_cache c) = length ents.
Proof. intros (_ & Hnd & -> & _). by apply map_size_list_to_map. Qed.

Lemma lru_rep_new : lru_rep (new_closure : closure K V addr) [].
Proof.
  split_and!; try done.
  - split_and!; [apply NoDup_singleton|by apply Forall_singleton; simpl; lia|done].
  - apply NoDup_nil_2.
Qed.

(** A hit moves the entry to the end and leaves the dictionary alone. *)
Lemma lru_call_hit c e1 k a e2 :
  lru_rep c (e1 ++ (k, a) :: e2) →
  ∃ c', lru_call k c = (c', Hit (link_result_field (heap c !!! a))) ∧
        lru_rep c' (e1 ++ e2 ++ [(k, a)]) ∧
        local_cache c' = local_cache c ∧ hits c' = S (hits c) ∧
        misses c' = misses c ∧ full c' = full c ∧ root c' = root c ∧
        length (heap c') = length (heap c).
Proof.
  intros Hrep. unfold lru_call.
  assert (local_cache c !! k = Some a) as ->.
  { apply (lru_rep_lookup _ _ _ _ Hrep), elem_of_app. right. left. }
  eexists. split; [done|]. simpl.
  destruct Hrep as (Hring & Hnd & Hcache & Hkeys & Hroot).
  rewrite fmap_app, fmap_cons in Hring. simpl in Hring.
  pose proof (ring_move_to_front _ _ _ _ _ Hring) as Hring'. simpl in Hring'.
  assert (e1 ++ e2 ++ [(k, a)] ≡ₚ e1 ++ (k, a) :: e2) as Hperm.
  { apply Permutation_app_head. by rewrite Permutation_app_comm. }
  split_and!; try done; [|by autorewrite with store].
  split_and!; simpl.
  - by rewrite !fmap_app.
  - by rewrite Hperm.
  - rewrite Hcache. apply list_to_map_proper; [done|by symmetry].
  - rewrite Hperm. eapply Forall_impl; [done|]. simpl. intros e He.
    by autorewrite with store.
  - by autorewrite with store.
Qed.

Lemma lru_call_miss c ents k :
  lru_rep c ents → k ∉ ents.*1 →
  ∃ c', lru_call k c = (c', Await) ∧ lru_rep c' ents ∧
        local_cache c' = local_cache c ∧ hits c' = hits c ∧
        misses c' = S (misses c) ∧ full c' = full c ∧ root c' = root c ∧
        heap c' = heap c.
Proof.
  intros Hrep Hk. unfold lru_call.
  rewrite (proj2 (lru_rep_lookup_None _ _ _ Hrep) Hk).
  eexists. split; [done|]. by split_and!.
Qed.

Lemma lru_resume_present maxsize c ents k result :
  lru_rep c ents → k ∈ ents.*1 →
  lru_resume (E:=E) maxsize k (Returned result) c = (c, Return result).
Proof.
  intros Hrep Hk. unfold lru_resume. rewrite decide_True; [done|].
  destruct (local_cache c !! k) eqn:Hl; [done|].
  by apply (lru_rep_lookup_None _ _ _ Hrep) in Hl.
Qed.

(** Lines 190-196: a new link for a new key. *)
Lemma lru_resume_insert maxsize c ents k result :
  lru_rep c ents → k ∉ ents.*1 → full c = false →
  ∃ c', lru_resume (E:=E) maxsize k (Returned result) c = (c', Return result) ∧
        lru_rep c' (ents ++ [(k, length (heap c))]) ∧
        local_cache c' = <[k := length (heap c)]> (local_cache c) ∧
        hits c' = hits c ∧ misses c' = misses c ∧ root c' = root c ∧
        full c' = bool_decide (maxsize ≤ Z.of_nat (S (length ents)))%Z ∧
        length (heap c') = S (length (heap c)) ∧
        link_result_field (heap c' !!! length (heap c)) = result.
Proof.
  intros Hrep Hk Hfull. unfold lru_resume.
  pose proof (proj2 (lru_rep_lookup_None _ _ _ Hrep) Hk) as Hnone.
  rewrite decide_False by (rewrite Hnone; by intros [? ?]).
  rewrite Hfull. eexists. split; [done|]. simpl.
  pose proof (lru_rep_size _ _ Hrep) as Hsize.
  destruct Hrep as (Hring & Hnd & Hcache & Hkeys & Hroot).
  set (h := heap c) in *. set (r := root c) in *. set (x := length h).
  set (last := link_prev_field (h !!! r)).
  set (h0 := h ++ [Link last r (Some k) result]).
  assert (length h0 = S x) as Hlen0.
  { unfold h0. rewrite length_app. simpl. unfold x. lia. }
  assert (r < x) as Hr by (eapply ring_lt; [done|left]).
  assert (last < x) as Hlast.
  { eapply ring_lt; [done|]. eapply ring_prev_in; [done|left]. }
  assert (∀ a, a ∈ r :: ents.*2 → a < x) as Hlt.
  { intros a Ha. by eapply ring_lt. }
  assert (∀ a, a < x → h0 !!! a = h !!! a) as Hold.
  { intros a Ha. unfold h0. by rewrite lookup_total_app_l. }
  assert (h0 !!! x = Link last r (Some k) result) as Hnew.
  { unfold h0, x. by rewrite list_lookup_total_middle. }
  split_and!; try done.
  - split_and!; simpl.
    + rewrite fmap_app. simpl. apply (ring_push_back h); try done; fold last.
      all: autorewrite with store; try lia.
      * intros Hin. apply Hlt in Hin. lia.
      * rewrite decide_True by done. done.
      * rewrite decide_True by done. done.
      * rewrite decide_False by lia. by rewrite Hnew.
      * rewrite decide_False by lia. by rewrite Hnew.
      * intros a Ha Hal. autorewrite with store. rewrite decide_False by done.
        rewrite Hold; [done|]. by apply Hlt.
      * intros a Ha. autorewrite with store.
        assert (a ∈ r :: ents.*2) as Ha' by (by right).
        rewrite decide_False.
        -- rewrite Hold; [done|]. by apply Hlt.
        -- intros ->. destruct Hring as [[Hnr _]%NoDup_cons _]. done.
    + rewrite fmap_app. simpl. apply NoDup_app.
      split_and!; [done| |apply NoDup_singleton].
      by intros a Ha ->%list_elem_of_singleton.
    + rewrite Hcache. symmetry. by apply list_to_map_snoc.
    + apply Forall_app. split.
      * eapply Forall_forall. intros e He.
        eapply Forall_forall in Hkeys; [|done]. autorewrite with store.
        rewrite Hold; [done|]. apply Hlt. right.
        apply list_elem_of_fmap. by exists e.
      * apply Forall_singleton. simpl. autorewrite with store. by rewrite Hnew.
    + autorewrite with store. by rewrite Hold.
  - simpl. rewrite map_size_insert_None by done. rewrite Hsize.
    apply bool_decide_ext. lia.
  - simpl. autorewrite with store. lia.
  - simpl. autorewrite with store. by rewrite Hnew.
Qed.

(** Lines 170-188: the old root takes the new key and result, the oldest
    link is emptied and becomes the root. *)
Lemma lru_resume_evict maxsize c k0 a0 ents k result :
  lru_rep c ((k0, a0) :: ents) → k ∉ k0 :: ents.*1 → full c = true →
  ∃ c', lru_resume (E:=E) maxsize k (Returned result) c = (c', Return result) ∧
        lru_rep c' (ents ++ [(k, root c)]) ∧
        local_cache c' = <[k := root c]> (delete k0 (local_cache c)) ∧
        hits c' = hits c ∧ misses c' = misses c ∧ root c' = a0 ∧
        full c' = true ∧ length (heap c') = length (heap c) ∧
        link_result_field (heap c' !!! root c) = result ∧
        link_result_field (heap c' !!! a0) = py_None.
Proof.
  intros Hrep Hk Hfull. unfold lru_resume.
  pose proof (proj2 (lru_rep_lookup_None _ ((k0, a0) :: ents) _ Hrep) Hk) as Hnone.
  rewrite decide_False by (rewrite Hnone; by intros [? ?]).
  rewrite Hfull.
  assert (local_cache c !! k0 = Some a0) as Hk0.
  { apply (lru_rep_lookup _ _ _ _ Hrep). left. }
  destruct Hrep as (Hring & Hnd & Hcache & Hkeys & Hroot).
  simpl in Hring, Hnd.
  set (h := heap c) in *. set (r := root c) in *.
  assert (r < length h) as Hr by (eapply ring_lt; [done|left]).
  assert (a0 < length h) as Ha0 by (eapply ring_lt; [done|right; left]).
  assert (link_next_field (h !!! r) = a0) as Hnext.
  { destruct Hring as (_ & _ & Hch). simpl in Hch. by destruct Hch as [? _]. }
  assert (r ≠ a0) as Hra.
  { destruct Hring as [[Hnr _]%NoDup_cons _]. intros ->. apply Hnr. left. }
  apply Forall_cons in Hkeys as [Hkey0 Hkeys]. simpl in Hkey0.
  apply NoDup_cons in Hnd as [Hk0_new Hnd].
  autorewrite with store. rewrite Hnext. autorewrite with store.
  rewrite decide_False by done. rewrite Hkey0. simpl.
  rewrite decide_True by (by rewrite Hk0).
  eexists. split; [done|]. simpl.
  split_and!; try done.
  - split_and!; simpl.
    + rewrite fmap_app. simpl. apply ring_rotate.
      eapply ring_frame; [done| |].
      * autorewrite with store. lia.
      * intros a _. by autorewrite with store.
    + rewrite fmap_app. simpl. apply NoDup_app.
      split_and!; [done| |apply NoDup_singleton].
      intros ? Ha ->%list_elem_of_singleton. apply Hk. by right.
    + rewrite Hcache. simpl. rewrite delete_insert_eq.
      rewrite delete_id by (by apply not_elem_of_list_to_map).
      symmetry. apply list_to_map_snoc. intros ?. apply Hk. by right.
    + apply Forall_app. split.
      * eapply Forall_forall. intros e He.
        eapply Forall_forall in Hkeys; [|done]. autorewrite with store.
        assert (e.2 ∈ ents.*2) as He2 by (apply list_elem_of_fmap; by exists e).
        destruct Hring as (Hndr & _).
        apply NoDup_cons in Hndr as [Hnr [Hna _]%NoDup_cons].
        rewrite !decide_False; [done| |].
        -- intros Heq. apply Hnr. right. by rewrite <-Heq.
        -- intros Heq. apply Hna. by rewrite <-Heq.
      * apply Forall_singleton. simpl. autorewrite with store.
        rewrite decide_False by done. by rewrite decide_True.
    + autorewrite with store. by rewrite decide_True.
  - by autorewrite with store.
  - autorewrite with store. rewrite decide_False by done. by rewrite decide_True.
  - autorewrite with store. by rewrite decide_True.
Qed.

Lemma lru_rep_clear c ents : lru_rep c ents → lru_rep (cache_clear c) [].
Proof.
  intros (Hring & _). assert (root c < length (heap c)) as Hr.
  { eapply ring_lt; [done|left]. }
  split_and!; simpl.
  - by apply ring_reset.
  - apply NoDup_nil_2.
  - done.
  - done.
  - by rewrite list_lookup_total_insert_eq.
Qed.

(** *** What the representation says about the closure *)

Lemma lru_rep_forward c ents : lru_rep c ents → ring_forward c = Some ents.*2.
Proof. intros (Hring & _). by apply ring_walk_forward. Qed.

Lemma lru_rep_backward c ents :
  lru_rep c ents → ring_backward c = Some (reverse ents.*2).
Proof. intros (Hring & _). by apply ring_walk_backward. Qed.

Lemma lru_rep_keys c ents : lru_rep c ents → ring_keys c = Some ents.*1.
Proof.
  intros Hrep. unfold ring_keys. rewrite (lru_rep_forward _ _ Hrep).
  destruct Hrep as (_ & _ & _ & Hkeys & _). apply mapM_Some.
  induction Hkeys as [|e ents He Hkeys IH]; simpl; by constructor.
Qed.

Lemma lru_rep_agree c ents : lru_rep c ents → ring_index_agree c.
Proof.
  intros Hrep. exists ents.*2.
  pose proof (lru_rep_forward _ _ Hrep). pose proof (lru_rep_backward _ _ Hrep).
  pose proof (lru_rep_size _ _ Hrep) as Hsize.
  assert (∀ k a, local_cache c !! k = Some a ↔ (k, a) ∈ ents) as Hlook.
  { intros k a. by apply lru_rep_lookup. }
  destruct Hrep as ((Hnd & _) & Hndk & Hcache & Hkeys & Hroot).
  apply NoDup_cons in Hnd as [Hr Hnd].
  split_and!; try done.
  - by rewrite length_fmap.
  - intros a. rewrite list_elem_of_fmap. split.
    + intros ([k a'] & -> & Hin). exists k. by apply Hlook.
    + intros [k Hk]. exists (k, a). split; [done|]. by apply Hlook.
  - intros k a. rewrite Hlook. split.
    + intros Hin. split; [apply list_elem_of_fmap; by exists (k, a)|].
      by apply (proj1 (Forall_forall _ _) Hkeys (k, a)).
    + intros [([k' a'] & -> & Hin)%list_elem_of_fmap Hk].
      eapply Forall_forall in Hkeys; [|done]. simpl in *. congruence.
Qed.

(** *** The wrapper and the list of keys *)

Lemma filter_ne_middle (k : K) (l1 l2 : list K) :
  NoDup (l1 ++ k :: l2) → filter (.≠ k) (l1 ++ k :: l2) = l1 ++ l2.
Proof.
  intros Hnd. apply NoDup_app in Hnd as (_ & Hd & [Hk _]%NoDup_cons).
  assert (∀ l : list K, k ∉ l → filter (.≠ k) l = l) as Hid.
  { induction l as [|x l IH]; [done|]. intros Hx.
    rewrite filter_cons_True by (intros ->; apply Hx; left).
    rewrite IH; [done|]. intros ?. apply Hx. by right. }
  rewrite filter_app, filter_cons_False by (by intros ?).
  rewrite !Hid; [done|done|]. intros Hin. apply (Hd _ Hin). left.
Qed.

Lemma lru_state_new maxsize :
  (0 < maxsize)%Z → lru_state maxsize (new_closure : closure K V addr) [].
Proof.
  intros Hpos. split_and!; [apply lru_rep_new| |simpl; lia].
  simpl. by rewrite bool_decide_eq_false_2 by lia.
Qed.

Lemma lru_state_step maxsize c ents (ev : event K V E) :
  (0 < maxsize)%Z → lru_state maxsize c ents →
  ∃ ents', lru_state maxsize (lru_step maxsize c ev) ents' ∧
           ents'.*1 = keys_step maxsize ents.*1 ev.
Proof.
  intros Hpos (Hrep & Hfull & Hle).
  destruct ev as [k|k [result|e]|]; cbn [lru_step keys_step].
  - (* the first half of a call *)
    destruct (decide (k ∈ ents.*1)) as [Hin|Hnotin].
    + apply list_elem_of_fmap in Hin as ([k' a] & -> & Hin). simpl.
      apply list_elem_of_split in Hin as (e1 & e2 & ->).
      destruct (lru_call_hit _ _ _ _ _ Hrep)
        as (c' & -> & Hrep' & _ & _ & _ & Hf & _).
      exists (e1 ++ e2 ++ [(k', a)]). simpl. split.
      * split_and!; [done| |].
        -- rewrite Hf, Hfull. apply bool_decide_ext.
           rewrite !length_app. simpl. rewrite ?length_app. simpl. lia.
        -- revert Hle. rewrite !length_app. simpl. rewrite ?length_app. simpl. lia.
      * unfold move_to_end. rewrite !fmap_app, fmap_cons. simpl.
        rewrite filter_ne_middle; [by rewrite (assoc_L (++))|].
        destruct Hrep as (_ & Hnd & _). by rewrite fmap_app, fmap_cons in Hnd.
    + destruct (lru_call_miss _ _ _ Hrep Hnotin)
        as (c' & -> & Hrep' & _ & _ & _ & Hf & _).
      exists ents. simpl. split; [|done]. split_and!; [done| |done].
      by rewrite Hf.
  - (* the second half, with a result *)
    unfold store_key. destruct (decide (k ∈ ents.*1)) as [Hin|Hnotin].
    + rewrite (lru_resume_present _ _ _ _ _ Hrep Hin). simpl.
      exists ents. by split_and!.
    + destruct (decide (Z.of_nat (length ents.*1) < maxsize)%Z) as [Hlt|Hge];
        rewrite length_fmap in *.
      * rewrite bool_decide_eq_false_2 in Hfull by lia.
        destruct (lru_resume_insert maxsize _ _ _ result Hrep Hnotin Hfull)
          as (c' & -> & Hrep' & _ & _ & _ & _ & Hf & _).
        exists (ents ++ [(k, length (heap c))]). simpl. split; [|by rewrite fmap_app].
        split_and!; [done| |].
        -- rewrite Hf. apply bool_decide_ext. rewrite length_app. simpl. lia.
        -- rewrite length_app. simpl. lia.
      * rewrite bool_decide_eq_true_2 in Hfull by lia.
        destruct ents as [|[k0 a0] ents]; [simpl in *; lia|].
        destruct (lru_resume_evict maxsize _ _ _ _ _ result Hrep Hnotin Hfull)
          as (c' & -> & Hrep' & _ & _ & _ & _ & Hf & _).
        exists (ents ++ [(k, root c)]). simpl. split; [|by rewrite fmap_app].
        split_and!; [done| |].
        -- rewrite Hf. symmetry. apply bool_decide_eq_true_2.
           rewrite length_app. simpl in *. lia.
        -- rewrite length_app. simpl in *. lia.
  - (* the second half, with an exception *)
    exists ents. by split_and!.
  - (* cache_clear *)
    exists []. split; [|done]. split_and!; [by eapply lru_rep_clear| |simpl; lia].
    simpl. by rewrite bool_decide_eq_false_2 by lia.
Qed.

Lemma lru_order_run maxsize (evs : list (event K V E)) :
  (0 < maxsize)%Z →
  lru_order maxsize (lru_run maxsize evs) (foldl (keys_step maxsize) [] evs).
Proof.
  intros Hpos. unfold lru_run.
  assert (lru_order maxsize (new_closure : closure K V addr) []) as Hinit.
  { exists []. split; [by apply lru_state_new|done]. }
  revert Hinit. generalize (new_closure : closure K V addr) ([] : list K).
  induction evs as [|ev evs IH]; intros c ks Hord; [done|]. simpl.
  apply IH. destruct Hord as (ents & Hst & <-).
  destruct (lru_state_step _ _ _ ev Hpos Hst) as (ents' & Hst' & <-).
  by exists ents'.
Qed.

Lemma lru_inv_run maxsize (evs : list (event K V E)) :
  (0 < maxsize)%Z → lru_inv maxsize (lru_run maxsize evs).
Proof.
  intros Hpos. destruct (lru_order_run maxsize evs Hpos) as (ents & Hst & _).
  by exists ents.
Qed.

(** *** Calls that run alone *)

Lemma is_hit_order maxsize c ks k :
  lru_order maxsize c ks → is_hit k c = bool_decide (k ∈ ks).
Proof.
  intros (ents & (Hrep & _) & <-). unfold is_hit.
  destruct (decide (k ∈ ents.*1)) as [Hin|Hnotin].
  - rewrite bool_decide_eq_true_2 by done.
    apply list_elem_of_fmap in Hin as ([k' a] & -> & Hin). simpl.
    apply list_elem_of_split in Hin as (e1 & e2 & ->).
    by destruct (lru_call_hit _ _ _ _ _ Hrep) as (c' & -> & _).
  - rewrite bool_decide_eq_false_2 by done.
    by destruct (lru_call_miss _ _ _ Hrep Hnotin) as (c' & -> & _).
Qed.

Lemma lru_order_step maxsize c ks (ev : event K V E) :
  (0 < maxsize)%Z → lru_order maxsize c ks →
  lru_order maxsize (lru_step maxsize c ev) (keys_step maxsize ks ev).
Proof.
  intros Hpos (ents & Hst & <-).
  destruct (lru_state_step _ _ _ ev Hpos Hst) as (ents' & Hst' & <-).
  by exists ents'.
Qed.

Lemma lru_call_alone_order maxsize (f : K → V) k c ks :
  (0 < maxsize)%Z → lru_order maxsize c ks →
  let res := lru_call_alone (E:=E) maxsize f k c in
  lru_order maxsize res.1 (touch maxsize ks k) ∧
  res.2.1 = bool_decide (k ∈ ks) ∧
  ∃ result, res.2.2 = Return result.
Proof.
  intros Hpos Hord. unfold lru_call_alone, touch.
  pose proof (lru_order_step _ _ _ (EvCall k) Hpos Hord) as Hord1.
  pose proof (is_hit_order _ _ _ k Hord) as Hhit. unfold is_hit in Hhit.
  simpl in Hord1. destruct (lru_call k c) as [c1 [v|]] eqn:Hcall; simpl in *.
  - apply symmetry, bool_decide_eq_true_1 in Hhit.
    rewrite decide_True in Hord1 |- * by done.
    rewrite bool_decide_eq_true_2 by done. eauto.
  - apply symmetry, bool_decide_eq_false_1 in Hhit.
    rewrite decide_False in Hord1 |- * by done.
    rewrite bool_decide_eq_false_2 by done.
    pose proof (lru_order_step _ _ _ (EvResume k (Returned (f k))) Hpos Hord1)
      as Hord2. simpl in Hord2.
    destruct Hord1 as (ents & (Hrep & Hfull & Hle) & <-).
    destruct (lru_resume maxsize k (Returned (f k)) c1) as [c2 r] eqn:Hres.
    simpl in *. split_and!; [done|done|].
    revert Hres. unfold store_key in Hord2.
    destruct (decide (Z.of_nat (length ents) < maxsize)%Z) as [Hlt|Hge].
    + rewrite bool_decide_eq_false_2 in Hfull by lia.
      destruct (lru_resume_insert maxsize _ _ _ (f k) Hrep Hhit Hfull)
        as (c' & -> & _). intros [= <- <-]. eauto.
    + rewrite bool_decide_eq_true_2 in Hfull by lia.
      destruct ents as [|[k0 a0] ents]; [simpl in *; lia|].
      destruct (lru_resume_evict maxsize _ _ _ _ _ (f k) Hrep Hhit Hfull)
        as (c' & -> & _). intros [= <- <-]. eauto.
Qed.

Lemma lru_calls_alone_order maxsize (f : K → V) keys c ks :
  (0 < maxsize)%Z → lru_order maxsize c ks →
  let res := lru_calls_alone (E:=E) maxsize f keys c in
  lru_order maxsize res.1 (foldl (touch maxsize) ks keys) ∧
  res.2.*1 = hit_trace maxsize ks keys ∧
  Forall (λ r, ∃ result, r.2 = Return result) res.2.
Proof.
  intros Hpos. revert c ks. induction keys as [|k keys IH]; intros c ks Hord.
  - by split_and!.
  - simpl.
    destruct (lru_call_alone_order maxsize f k c ks Hpos Hord) as (Hord1 & Hh & Hr).
    destruct (lru_call_alone maxsize f k c) as [c1 r]. simpl in Hord1, Hh, Hr.
    destruct (IH _ _ Hord1) as (Hord2 & Hhs & Hrs).
    destruct (lru_calls_alone maxsize f keys c1) as [c2 rs].
    simpl in *. split_and!; [done|by f_equal|by constructor].
Qed.

End rep_facts.



(** ** The list of keys of a least-recently-used cache *)

Section keys_facts.
Context {K : Type} `{EqDecision K}.
Implicit Types (k : K) (ks keys : list K).

Lemma touch_fresh maxsize ks k :
  k ∉ ks → (Z.of_nat (length ks) < maxsize)%Z → touch maxsize ks k = ks ++ [k].
Proof.
  intros Hk Hlen. unfold touch, store_key.
  by rewrite !decide_False, decide_True by done.
Qed.

Lemma touch_full maxsize ks k :
  k ∉ ks → ¬ (Z.of_nat (length ks) < maxsize)%Z →
  touch maxsize ks k = tail ks ++ [k].
Proof. intros Hk Hlen. unfold touch, store_key. by rewrite !decide_False by done. Qed.

Lemma touch_hit maxsize l1 k l2 :
  NoDup (l1 ++ k :: l2) → touch maxsize (l1 ++ k :: l2) k = l1 ++ l2 ++ [k].
Proof.
  intros Hnd. unfold touch, move_to_end.
  rewrite decide_True by (apply elem_of_app; right; left).
  assert (∀ l : list K, k ∉ l → filter (.≠ k) l = l) as Hid.
  { induction l as [|x l IH]; [done|]. intros Hx.
    rewrite filter_cons_True by (intros ->; apply Hx; left).
    rewrite IH; [done|]. intros ?. apply Hx. by right. }
  apply NoDup_app in Hnd as (_ & Hd & [Hk _]%NoDup_cons).
  rewrite filter_app, filter_cons_False by (by intros ?).
  rewrite !Hid; [by rewrite (assoc_L (++))|done|].
  intros Hin. apply (Hd _ Hin). left.
Qed.

Lemma hit_trace_app maxsize ks l1 l2 :
  hit_trace maxsize ks (l1 ++ l2) =
  hit_trace maxsize ks l1 ++ hit_trace maxsize (foldl (touch maxsize) ks l1) l2.
Proof.
  revert ks. induction l1 as [|k l1 IH]; intros ks; [done|].
  simpl. by rewrite IH.
Qed.

(** Distinct keys that fit are kept in the order of their calls, and every
    one of the calls is a miss. *)
Lemma fill_distinct maxsize ks keys :
  NoDup (ks ++ keys) → (Z.of_nat (length (ks ++ keys)) ≤ maxsize)%Z →
  foldl (touch maxsize) ks keys = ks ++ keys ∧
  hit_trace maxsize ks keys = replicate (length keys) false.
Proof.
  revert ks. induction keys as [|k keys IH]; intros ks Hnd Hlen.
  - by rewrite app_nil_r.
  - assert (k ∉ ks) as Hk.
    { apply NoDup_app in Hnd as (_ & Hd & _). intros Hin.
      apply (Hd _ Hin). left. }
    rewrite length_app in Hlen. simpl in *.
    rewrite touch_fresh by (done || lia).
    rewrite bool_decide_eq_false_2 by done.
    destruct (IH (ks ++ [k])) as [-> ->].
    + by rewrite <-(assoc_L (++)).
    + rewrite !length_app. simpl. lia.
    + by rewrite <-(assoc_L (++)).
Qed.

(** One key more than fits: the first key is dropped. *)
Lemma keys_in_order maxsize k0 ks :
  NoDup (k0 :: ks) → Z.of_nat (length ks) = maxsize → (0 < maxsize)%Z →
  foldl (touch maxsize) [] (k0 :: ks) = ks ∧
  hit_trace maxsize [] (k0 :: ks) = replicate (S (length ks)) false.
Proof.
  intros Hnd Hlen Hpos.
  destruct ks as [|kn ks' _] using rev_ind; [simpl in *; lia|].
  rewrite length_app in Hlen. simpl in Hlen.
  rewrite app_comm_cons in Hnd |- *.
  apply NoDup_app in Hnd as (Hnd & Hd & _).
  assert (kn ∉ k0 :: ks') as Hkn.
  { intros Hin. apply (Hd _ Hin). left. }
  destruct (fill_distinct maxsize [] (k0 :: ks')) as [Hfold Htrace].
  { done. } { simpl. lia. }
  rewrite foldl_app, hit_trace_app, Hfold, Htrace. simpl.
  rewrite touch_full by (done || simpl; lia).
  rewrite bool_decide_eq_false_2 by done. split; [done|].
  rewrite length_app. simpl.
  replace (length ks' + 1) with (S (length ks')) by lia.
  by rewrite (replicate_S_end (length ks')).
Qed.

(** The first key is called again when it is the only key: it is still the
    oldest one, and it is dropped. *)
Lemma keys_promoted_alone maxsize k0 ks :
  NoDup (k0 :: ks) → Z.of_nat (length ks) = maxsize → (0 < maxsize)%Z →
  foldl (touch maxsize) [] (k0 :: k0 :: ks) = ks ∧
  hit_trace maxsize [] (k0 :: k0 :: ks) = false :: true :: replicate (length ks) false.
Proof.
  intros Hnd Hlen Hpos.
  destruct (keys_in_order maxsize k0 ks Hnd Hlen Hpos) as [Hfold Htrace].
  simpl in Hfold, Htrace. injection Htrace as Htrace.
  assert (touch maxsize [] k0 = [k0]) as E0.
  { apply (touch_fresh maxsize []); [by intros ?%elem_of_nil|simpl; lia]. }
  assert (touch maxsize [k0] k0 = [k0]) as E1.
  { apply (touch_hit maxsize [] k0 []). apply NoDup_singleton. }
  rewrite E0 in Hfold, Htrace. simpl. rewrite E0, E1, Hfold, Htrace.
  by rewrite bool_decide_eq_true_2 by left.
Qed.

(** The first key is called again while it is in the cache: the second key
    is dropped in its place. *)
Lemma keys_promoted maxsize k0 k1 l1 l2 :
  NoDup (k0 :: k1 :: l1 ++ l2) → l2 ≠ [] →
  Z.of_nat (length (k1 :: l1 ++ l2)) = maxsize →
  foldl (touch maxsize) [] (k0 :: k1 :: l1 ++ k0 :: l2) = l1 ++ k0 :: l2 ∧
  hit_trace maxsize [] (k0 :: k1 :: l1 ++ k0 :: l2) =
    replicate (2 + length l1) false ++ true :: replicate (length l2) false.
Proof.
  intros Hnd Hne Hlen.
  destruct l2 as [|kn l2' _] using rev_ind; [done|]. clear Hne.
  simpl in Hlen. rewrite !length_app in Hlen. simpl in Hlen.
  assert (NoDup ((k0 :: k1 :: l1) ++ l2' ++ [kn])) as Hnd' by done.
  apply NoDup_app in Hnd' as (Hnd1 & Hd1 & Hnd2).
  apply NoDup_app in Hnd2 as (Hnd2 & Hd2 & _).
  replace (k0 :: k1 :: l1 ++ k0 :: l2' ++ [kn])
    with ((k0 :: k1 :: l1) ++ [k0] ++ l2' ++ [kn]) by done.
  destruct (fill_distinct maxsize [] (k0 :: k1 :: l1)) as [Hfold1 Htrace1].
  { done. } { simpl. lia. }
  rewrite !foldl_app, !hit_trace_app, Hfold1, Htrace1. simpl foldl.
  assert (touch maxsize (k0 :: k1 :: l1) k0 = k1 :: l1 ++ [k0]) as Htouch.
  { apply (touch_hit maxsize [] k0 (k1 :: l1)). done. }
  rewrite Htouch.
  assert (NoDup ((k1 :: l1 ++ [k0]) ++ l2' ++ [kn])) as Hnd3.
  { assert ((k1 :: l1 ++ [k0]) ++ l2' ++ [kn] ≡ₚ k0 :: k1 :: l1 ++ l2' ++ [kn])
      as ->; [|done].
    simpl. rewrite <-(assoc_L (++)). simpl.
    rewrite <-Permutation_middle. apply perm_swap. }
  apply NoDup_app in Hnd3 as (Hnd3 & Hd3 & _).
  destruct (fill_distinct maxsize (k1 :: l1 ++ [k0]) l2') as [Hfold2 Htrace2].
  { apply NoDup_app. split_and!; [done| |done].
    intros x Hx Hin. apply (Hd3 _ Hx), elem_of_app. by left. }
  { simpl. rewrite !length_app. simpl. lia. }
  rewrite Hfold2, Htrace2.
  assert (kn ∉ (k1 :: l1 ++ [k0]) ++ l2') as Hkn.
  { intros [Hin|Hin]%elem_of_app.
    - apply (Hd3 _ Hin), elem_of_app. right. left.
    - apply (Hd2 _ Hin). left. }
  simpl hit_trace.
  rewrite touch_full by (done || simpl; rewrite !length_app; simpl; lia).
  rewrite bool_decide_eq_true_2 by left.
  rewrite bool_decide_eq_false_2 by done. split.
  - simpl. by rewrite <-!(assoc_L (++)).
  - simpl. rewrite length_app. simpl.
    replace (length l2' + 1) with (S (length l2')) by lia.
    rewrite (replicate_S_end (length l2')). done.
Qed.

(** Three keys and room for two: the fifth call drops the first key, so the
    sixth call is a miss as well. *)
Local Ltac mem :=
  rewrite ?not_elem_of_cons, ?elem_of_cons, ?elem_of_nil; intuition congruence.

Lemma keys_scenario_A k1 k2 k3 :
  NoDup [k1; k2; k3] →
  hit_trace 2 [] [k1; k2; k1; k3; k2; k1] = [false; false; true; false; false; false] ∧
  foldl (touch 2) [] [k1; k2; k1; k3] = [k1; k3] ∧
  foldl (touch 2) [] [k1; k2; k1; k3; k2] = [k3; k2].
Proof.
  intros Hnd. apply NoDup_cons in Hnd as [H1 Hnd].
  apply NoDup_cons in Hnd as [H2 _].
  assert (k1 ≠ k2 ∧ k1 ≠ k3 ∧ k2 ≠ k3) as (H12 & H13 & H23).
  { apply not_elem_of_cons in H1 as [? [? _]%not_elem_of_cons].
    apply not_elem_of_cons in H2 as [? _]. done. }
  assert (touch 2 [] k1 = [k1]) as E1.
  { apply (touch_fresh 2 []); [mem|simpl; lia]. }
  assert (touch 2 [k1] k2 = [k1; k2]) as E2.
  { apply (touch_fresh 2 [k1]); [mem|simpl; lia]. }
  assert (touch 2 [k1; k2] k1 = [k2; k1]) as E3.
  { apply (touch_hit 2 [] k1 [k2]). repeat constructor; mem. }
  assert (touch 2 [k2; k1] k3 = [k1; k3]) as E4.
  { apply (touch_full 2 [k2; k1]); [mem|simpl; lia]. }
  assert (touch 2 [k1; k3] k2 = [k3; k2]) as E5.
  { apply (touch_full 2 [k1; k3]); [mem|simpl; lia]. }
  simpl. rewrite E1, E2, E3, E4, E5.
  rewrite (bool_decide_eq_false_2 (k2 ∈ [k1])) by mem.
  rewrite (bool_decide_eq_true_2 (k1 ∈ [k1; k2])) by mem.
  rewrite (bool_decide_eq_false_2 (k3 ∈ [k2; k1])) by mem.
  rewrite (bool_decide_eq_false_2 (k2 ∈ [k1; k3])) by mem.
  rewrite (bool_decide_eq_false_2 (k1 ∈ [k3; k2])) by mem.
  done.
Qed.

End keys_facts.


(** ** The claims about the three wrappers *)

Section claims.
Context {K : Type} `{Countable K} {V : Type} `{PyNone V} {E : Type}.
Implicit Types (c : closure K V addr) (key k : K) (result : V) (e : E).

(** The size limited wrapper is built for a positive [maxsize] only. *)
Lemma bounded_maxsize_positive (maxsize : option Z) (n : Z) :
  select_strategy (lru_cache_maxsize maxsize) = BoundedLRU n → (0 < n)%Z.
Proof.
  unfold select_strategy, lru_cache_maxsize. destruct maxsize as [m|]; [|done].
  destruct (m <? 0)%Z eqn:Hneg; simpl; [done|].
  destruct (m =? 0)%Z eqn:Hzero; [done|]. intros [= <-]. lia.
Qed.

Lemma lru_order_keys maxsize c ks :
  lru_order maxsize c ks → ring_keys c = Some ks.
Proof. intros (ents & (Hrep & _) & <-). by apply lru_rep_keys. Qed.

Lemma lru_order_new maxsize :
  (0 < maxsize)%Z → lru_order maxsize (new_closure : closure K V addr) [].
Proof. intros Hpos. exists []. split; [by apply lru_state_new|done]. Qed.

(** C1, as amended. A size limited cache of [maxsize] keys evicts in
    least-recently-used order, hits counting as uses. (0) For any calls that
    run one after the other, which of them hit and which keys the ring holds
    in the end, oldest first, is what the list of keys says: a hit moves its
    key to the end, a miss appends its key and, when [maxsize] keys are
    there, drops the first. (1) After calls with [maxsize + 1] distinct keys
    [k0 :: ks], all misses, the ring holds exactly [ks]: [k0] would miss and
    each of [ks] would hit. (2) When [k0] is called again between the
    insertions, that call is a hit; the key dropped in the end is the one
    that is the oldest then: [k0] itself when no other key was there at the
    second call, the second key [k1] otherwise. (3) With [maxsize = 2] and
    three distinct keys, the calls [k1, k2, k1, k3, k2, k1] are miss, miss,
    hit, miss, miss, miss: the fourth call evicts [k2], the fifth evicts
    [k1], so the sixth call is a miss and not a hit. *)
Theorem lru_eviction_order (maxsize : Z) (user_function : K → V) :
  (0 < maxsize)%Z →
  (∀ keys,
     let res := lru_calls_alone (E:=E) maxsize user_function keys new_closure in
     res.2.*1 = hit_trace maxsize [] keys ∧
     ring_keys res.1 = Some (foldl (touch maxsize) [] keys) ∧
     Forall (λ r, ∃ result, r.2 = Return result) res.2) ∧
  (∀ k0 ks, NoDup (k0 :: ks) → Z.of_nat (length ks) = maxsize →
     let res := lru_calls_alone (E:=E) maxsize user_function (k0 :: k0 :: ks)
                  new_closure in
     res.2.*1 = false :: true :: replicate (length ks) false ∧
     ring_keys res.1 = Some ks ∧
     is_hit k0 res.1 = false ∧ (∀ k, k ∈ ks → is_hit k res.1 = true)) ∧
  (∀ k0 ks, NoDup (k0 :: ks) → Z.of_nat (length ks) = maxsize →
     let res := lru_calls_alone (E:=E) maxsize user_function (k0 :: ks) new_closure in
     res.2.*1 = replicate (S (length ks)) false ∧
     ring_keys res.1 = Some ks ∧
     is_hit k0 res.1 = false ∧ (∀ k, k ∈ ks → is_hit k res.1 = true)) ∧
  (∀ k0 k1 l1 l2, NoDup (k0 :: k1 :: l1 ++ l2) → l2 ≠ [] →
     Z.of_nat (length (k1 :: l1 ++ l2)) = maxsize →
     let res := lru_calls_alone (E:=E) maxsize user_function
                  (k0 :: k1 :: l1 ++ k0 :: l2) new_closure in
     res.2.*1 = replicate (2 + length l1) false ++ true :: replicate (length l2) false ∧
     ring_keys res.1 = Some (l1 ++ k0 :: l2) ∧
     is_hit k1 res.1 = false ∧ (∀ k, k ∈ k0 :: l1 ++ l2 → is_hit k res.1 = true)) ∧
  (maxsize = 2%Z → ∀ k1 k2 k3, NoDup [k1; k2; k3] →
     (lru_calls_alone (E:=E) 2 user_function [k1; k2; k1; k3; k2; k1] new_closure).2.*1
       = [false; false; true; false; false; false] ∧
     ring_keys (lru_calls_alone (E:=E) 2 user_function [k1; k2; k1; k3] new_closure).1
       = Some [k1; k3] ∧
     ring_keys (lru_calls_alone (E:=E) 2 user_function [k1; k2; k1; k3; k2] new_closure).1
       = Some [k3; k2]).
Proof.
  intros Hpos. split_and!.
  - intros keys res.
    destruct (lru_calls_alone_order (E:=E) maxsize user_function keys
                new_closure [] Hpos (lru_order_new _ Hpos)) as (Hord & Htrace & Hret).
    split_and!; [done|by eapply lru_order_keys|done].
  - intros k0 ks Hnd Hlen res.
    destruct (lru_calls_alone_order (E:=E) maxsize user_function (k0 :: k0 :: ks)
                new_closure [] Hpos (lru_order_new _ Hpos)) as (Hord & Htrace & _).
    fold res in Hord, Htrace.
    destruct (keys_promoted_alone maxsize k0 ks Hnd Hlen Hpos) as [Hfold Hhits].
    rewrite Hfold in Hord. rewrite Hhits in Htrace.
    apply NoDup_cons in Hnd as [Hk0 _].
    split_and!; [done|by eapply lru_order_keys| |].
    + rewrite (is_hit_order _ _ _ _ Hord). by apply bool_decide_eq_false_2.
    + intros k Hk. rewrite (is_hit_order _ _ _ _ Hord).
      by apply bool_decide_eq_true_2.
  - intros k0 ks Hnd Hlen res.
    destruct (lru_calls_alone_order (E:=E) maxsize user_function (k0 :: ks)
                new_closure [] Hpos (lru_order_new _ Hpos)) as (Hord & Htrace & _).
    fold res in Hord, Htrace.
    destruct (keys_in_order maxsize k0 ks Hnd Hlen Hpos) as [Hfold Hhits].
    rewrite Hfold in Hord. rewrite Hhits in Htrace.
    apply NoDup_cons in Hnd as [Hk0 _].
    split_and!; [done|by eapply lru_order_keys| |].
    + rewrite (is_hit_order _ _ _ _ Hord). by apply bool_decide_eq_false_2.
    + intros k Hk. rewrite (is_hit_order _ _ _ _ Hord).
      by apply bool_decide_eq_true_2.
  - intros k0 k1 l1 l2 Hnd Hne Hlen res.
    destruct (lru_calls_alone_order (E:=E) maxsize user_function
                (k0 :: k1 :: l1 ++ k0 :: l2)
                new_closure [] Hpos (lru_order_new _ Hpos)) as (Hord & Htrace & _).
    fold res in Hord, Htrace.
    destruct (keys_promoted maxsize k0 k1 l1 l2 Hnd Hne Hlen) as [Hfold Hhits].
    rewrite Hfold in Hord. rewrite Hhits in Htrace.
    split_and!; [done|by eapply lru_order_keys| |].
    + rewrite (is_hit_order _ _ _ _ Hord). apply bool_decide_eq_false_2.
      apply NoDup_cons in Hnd as [Hk0 [Hk1 _]%NoDup_cons].
      intros Hin.
      apply elem_of_app in Hin as [?|[Heq|?]%elem_of_cons].
      * apply Hk1, elem_of_app. by left.
      * apply Hk0. subst k1. left.
      * apply Hk1, elem_of_app. by right.
    + intros k Hk. rewrite (is_hit_order _ _ _ _ Hord).
      apply bool_decide_eq_true_2.
      apply elem_of_cons in Hk as [->|[?|?]%elem_of_app];
        apply elem_of_app; [right; left|by left|by right; right].
  - intros -> k1 k2 k3 Hnd.
    destruct (keys_scenario_A k1 k2 k3 Hnd) as (Htrace & Hfour & Hfive).
    destruct (lru_calls_alone_order (E:=E) 2 user_function [k1; k2; k1; k3; k2; k1]
                new_closure [] Hpos (lru_order_new _ Hpos)) as (_ & -> & _).
    destruct (lru_calls_alone_order (E:=E) 2 user_function [k1; k2; k1; k3]
                new_closure [] Hpos (lru_order_new _ Hpos)) as (Hord4 & _).
    destruct (lru_calls_alone_order (E:=E) 2 user_function [k1; k2; k1; k3; k2]
                new_closure [] Hpos (lru_order_new _ Hpos)) as (Hord5 & _).
    rewrite Hfour in Hord4. rewrite Hfive in Hord5.
    split_and!; [done|by eapply lru_order_keys|by eapply lru_order_keys].
Qed.

(** C3. The invariant of the size limited cache holds for the new closure
    and is kept by every operation: the first half of a call (a hit moves
    the link, a miss only counts), the second half (nothing, a new link, or
    evict and reuse) and [cache_clear]. Under it ring and dictionary agree
    on their links and on their number; so they do after every run. *)
Theorem lru_ring_index_agree (maxsize : Z) :
  (0 < maxsize)%Z →
  lru_inv maxsize (new_closure : closure K V addr) ∧
  (∀ c (ev : event K V E), lru_inv maxsize c → lru_inv maxsize (lru_step maxsize c ev)) ∧
  (∀ c, lru_inv maxsize c → ring_index_agree c) ∧
  (∀ evs : list (event K V E), ring_index_agree (lru_run maxsize evs)).
Proof.
  intros Hpos.
  assert (∀ c, lru_inv maxsize c → ring_index_agree c) as Hagree.
  { intros c (ents & Hrep & _). by eapply lru_rep_agree. }
  split_and!.
  - exists []. by apply lru_state_new.
  - intros c ev (ents & Hst).
    destruct (lru_state_step _ _ _ ev Hpos Hst) as (ents' & Hst' & _).
    by exists ents'.
  - done.
  - intros evs. by apply Hagree, lru_inv_run.
Qed.

(** C4. After any run of calls and [cache_clear]s the current size is at
    most [maxsize]; [full] is set exactly when it is [maxsize]; and while
    [full] is set, storing a new key neither grows the dictionary nor
    makes a new link: the least recently used key leaves, its link becomes
    the root and the old root holds the new key. *)
Theorem lru_currsize_bounded (maxsize : Z) (evs : list (event K V E)) :
  (0 < maxsize)%Z →
  let c := lru_run maxsize evs in
  (Z.of_nat (ci_currsize (cache_info (Some maxsize) c)) ≤ maxsize)%Z ∧
  (full c = true ↔ Z.of_nat (size (local_cache c)) = maxsize) ∧
  (full c = true → ∀ key result, local_cache c !! key = None →
     let c' := (lru_resume (E:=E) maxsize key (Returned result) c).1 in
     (lru_resume (E:=E) maxsize key (Returned result) c).2 = Return result ∧
     size (local_cache c') = size (local_cache c) ∧
     length (heap c') = length (heap c) ∧
     full c' = true ∧
     ∃ k0 ks, ring_keys c = Some (k0 :: ks) ∧
              ring_keys c' = Some (ks ++ [key]) ∧
              local_cache c' !! k0 = None ∧
              local_cache c' !! key = Some (root c) ∧
              local_cache c !! k0 = Some (root c')).
Proof.
  intros Hpos c. destruct (lru_inv_run maxsize evs Hpos) as (ents & Hrep & Hfull & Hle).
  fold c in Hrep, Hfull. pose proof (lru_rep_size _ _ Hrep) as Hsize.
  split_and!.
  - simpl. rewrite Hsize. done.
  - rewrite Hfull, Hsize, bool_decide_eq_true. lia.
  - intros Hf key result Hnone c'.
    rewrite Hf in Hfull. apply symmetry, bool_decide_eq_true_1 in Hfull.
    destruct ents as [|[k0 a0] ents]; [simpl in *; lia|].
    assert (key ∉ ((k0, a0) :: ents).*1) as Hkey.
    { by apply (lru_rep_lookup_None _ _ _ Hrep). }
    destruct (lru_resume_evict (E:=E) maxsize _ _ _ _ _ result Hrep Hkey Hf)
      as (c2 & Hres & Hrep2 & Hcache & _ & _ & Hroot & Hf2 & Hlen & _).
    unfold c'. rewrite Hres. simpl.
    pose proof (lru_rep_size _ _ Hrep2) as Hsize2.
    assert (local_cache c !! k0 = Some a0) as Hk0.
    { apply (lru_rep_lookup _ _ _ _ Hrep). left. }
    split_and!; [done| |done|done|].
    + rewrite Hsize, Hsize2, length_app. simpl. lia.
    + exists k0, ents.*1. split_and!.
      * by rewrite (lru_rep_keys _ _ Hrep).
      * by rewrite (lru_rep_keys _ _ Hrep2), fmap_app.
      * rewrite Hcache, lookup_insert_ne, lookup_delete_eq; [done|].
        intros ->. congruence.
      * by rewrite Hcache, lookup_insert_eq.
      * by rewrite Hroot.
Qed.

(** C2. When the second half of a call finds its key in the dictionary, it
    stores nothing: the closure is the same afterwards and the call returns
    the result it awaited. After every run each key is on exactly one link.
    In the race of two calls with a key that is not cached, where the
    second call finishes first, both calls are misses and return the result
    they awaited, the dictionary keeps the link with the result of the
    second call, and the key is counted once. *)
Theorem lru_race_keeps_entry (maxsize : Z) :
  (0 < maxsize)%Z →
  (∀ c key result, is_Some (local_cache c !! key) →
     lru_resume (E:=E) maxsize key (Returned result) c = (c, Return result)) ∧
  (∀ evs : list (event K V E), ∃ ks,
     ring_keys (lru_run maxsize evs) = Some ks ∧ NoDup ks ∧
     length ks = size (local_cache (lru_run maxsize evs))) ∧
  (∀ (evs : list (event K V E)) key v1 v2,
     let c0 := lru_run maxsize evs in
     let c1 := (lru_call key c0).1 in
     let c2 := (lru_call key c1).1 in
     let c3 := (lru_resume (E:=E) maxsize key (Returned v2) c2).1 in
     local_cache c0 !! key = None →
     (lru_call key c0).2 = Await ∧ (lru_call key c1).2 = Await ∧
     (lru_resume (E:=E) maxsize key (Returned v2) c2).2 = Return v2 ∧
     lru_resume (E:=E) maxsize key (Returned v1) c3 = (c3, Return v1) ∧
     (∃ a, local_cache c3 !! key = Some a ∧
           link_result_field (heap c3 !!! a) = v2 ∧
           link_key_field (heap c3 !!! a) = Some key) ∧
     (∃ l1 l2, ring_keys c3 = Some (l1 ++ key :: l2) ∧ key ∉ l1 ++ l2) ∧
     misses c3 = 2 + misses c0 ∧
     size (local_cache c3) =
       (if full c0 then size (local_cache c0) else S (size (local_cache c0)))).
Proof.
  intros Hpos. split_and!.
  - intros c key result Hin. unfold lru_resume. by rewrite decide_True.
  - intros evs. destruct (lru_inv_run maxsize evs Hpos) as (ents & Hrep & _).
    exists ents.*1. split_and!.
    + by apply lru_rep_keys.
    + by destruct Hrep as (_ & ? & _).
    + by rewrite length_fmap, (lru_rep_size _ _ Hrep).
  - intros evs key v1 v2 c0 c1 c2 c3 Hnone.
    destruct (lru_inv_run maxsize evs Hpos) as (ents & Hrep & Hfull & Hle).
    fold c0 in Hrep, Hfull.
    assert (key ∉ ents.*1) as Hkey by (by apply (lru_rep_lookup_None _ _ _ Hrep)).
    unfold c3, c2, c1. clear c1 c2 c3.
    destruct (lru_call_miss _ _ _ Hrep Hkey)
      as (c1 & -> & Hrep1 & _ & _ & Hm1 & Hf1 & _). simpl.
    destruct (lru_call_miss _ _ _ Hrep1 Hkey)
      as (c2 & -> & Hrep2 & Hc2 & _ & Hm2 & Hf2 & Hr2 & Hh2). simpl.
    pose proof (lru_rep_size _ _ Hrep) as Hsize.
    destruct (full c0) eqn:Hf0.
    + apply symmetry, bool_decide_eq_true_1 in Hfull.
      destruct ents as [|[k0 a0] ents]; [simpl in *; lia|].
      assert (full c2 = true) as Hfull2 by congruence.
      destruct (lru_resume_evict (E:=E) maxsize _ _ _ _ _ v2 Hrep2 Hkey Hfull2)
        as (c' & -> & Hrep' & Hcache & _ & Hm' & _ & _ & _ & Hres & _). simpl.
      pose proof (lru_rep_size _ _ Hrep') as Hsize'.
      destruct (proj2 (proj2 (proj2 Hrep'))) as [Hkeys _].
      apply Forall_app in Hkeys as [_ [Hk _]%Forall_cons]. simpl in Hk.
      split_and!; [done|done|done| | | | |].
      * eapply lru_resume_present; [done|]. rewrite fmap_app. simpl.
        apply elem_of_app. right. left.
      * exists (root c2). by rewrite Hcache, lookup_insert_eq.
      * exists ents.*1, []. rewrite (lru_rep_keys _ _ Hrep'), fmap_app, app_nil_r.
        split; [done|]. intros ?. apply Hkey. simpl. by right.
      * lia.
      * rewrite Hsize', Hsize, length_app. simpl. lia.
    + assert (full c2 = false) as Hfull2 by congruence.
      destruct (lru_resume_insert (E:=E) maxsize _ _ _ v2 Hrep2 Hkey Hfull2)
        as (c' & -> & Hrep' & Hcache & _ & Hm' & _ & _ & _ & Hres). simpl.
      pose proof (lru_rep_size _ _ Hrep') as Hsize'.
      destruct (proj2 (proj2 (proj2 Hrep'))) as [Hkeys _].
      apply Forall_app in Hkeys as [_ [Hk _]%Forall_cons]. simpl in Hk.
      split_and!; [done|done|done| | | | |].
      * eapply lru_resume_present; [done|]. rewrite fmap_app. simpl.
        apply elem_of_app. right. left.
      * exists (length (heap c2)). by rewrite Hcache, lookup_insert_eq.
      * exists ents.*1, []. rewrite (lru_rep_keys _ _ Hrep'), fmap_app, app_nil_r.
        done.
      * lia.
      * rewrite Hsize', Hsize, length_app. simpl. lia.
Qed.

(** C8. In each of the three wrappers a miss counts before the user
    function is awaited and changes nothing else; when the awaited call
    raises, the second half stores nothing, whatever closure it finds, and
    the wrapper raises the same exception. *)
Theorem miss_then_failure (key : K) (e : E) :
  (∀ X (c c' : closure K V X),
     disabled_call key c =
       (Closure (local_cache c) (hits c) (S (misses c)) (full c) (root c) (heap c),
        Await) ∧
     disabled_resume key (Raised e) c' = (c', Raise (UserError e))) ∧
  (∀ c c' : closure K V V, local_cache c !! key = None →
     unbounded_call key c =
       (Closure (local_cache c) (hits c) (S (misses c)) (full c) (root c) (heap c),
        Await) ∧
     unbounded_resume key (Raised e) c' = (c', Raise (UserError e))) ∧
  (∀ maxsize (c c' : closure K V addr), local_cache c !! key = None →
     lru_call key c =
       (Closure (local_cache c) (hits c) (S (misses c)) (full c) (root c) (heap c),
        Await) ∧
     lru_resume maxsize key (Raised e) c' = (c', Raise (UserError e))).
Proof.
  split_and!.
  - done.
  - intros c c' Hnone. unfold unbounded_call. by rewrite Hnone.
  - intros maxsize c c' Hnone. unfold lru_call. by rewrite Hnone.
Qed.

(** C9. After [cache_clear] the statistics are zero hits, zero misses and
    size zero, the dictionary is empty, [full] is reset, the root link
    points to itself and holds no key and no result, so that both walks of
    the ring see no link; and every key is a miss on its next call. *)
Theorem cache_clear_resets {X} (maxsize : option Z) (c : closure K V X) :
  root c < length (heap c) →
  let c' := cache_clear c in
  cache_info maxsize c' = CacheInfo 0 0 maxsize 0 ∧
  local_cache c' = ∅ ∧ full c' = false ∧ root c' = root c ∧
  heap c' !!! root c' = Link (root c') (root c') None py_None ∧
  ring_forward c' = Some [] ∧ ring_backward c' = Some [] ∧
  ring_keys c' = Some [] ∧
  (∀ (cu : closure K V V) key, (unbounded_call key (cache_clear cu)).2 = Await) ∧
  (∀ (cl : closure K V addr) key, (lru_call key (cache_clear cl)).2 = Await).
Proof.
  intros Hroot c'.
  assert (heap c' !!! root c' = Link (root c') (root c') None py_None) as Hlink.
  { unfold c', cache_clear. simpl. by rewrite list_lookup_total_insert_eq. }
  assert (ring_forward c' = Some []) as Hfwd.
  { unfold ring_forward. rewrite Hlink. apply walk_root. }
  split_and!; try done.
  - unfold ring_backward. rewrite Hlink. apply walk_root.
  - unfold ring_keys. by rewrite Hfwd.
Qed.

(** C10. In the unbounded cache the second half of a call stores its result
    under the key without looking: an entry that another call has stored
    in the meantime is overwritten, the number of entries stays, no other
    key changes. In the race of two calls with one key the result of the
    call that finishes last is the one that stays. *)
Theorem unbounded_last_writer_wins (key : K) :
  (∀ (c : closure K V V) result,
     unbounded_resume (E:=E) key (Returned result) c =
       (Closure (<[key := result]> (local_cache c)) (hits c) (misses c) (full c)
          (root c) (heap c),
        Return result)) ∧
  (∀ (c : closure K V V) result,
     let c' := (unbounded_resume (E:=E) key (Returned result) c).1 in
     local_cache c' !! key = Some result ∧
     (∀ k, k ≠ key → local_cache c' !! k = local_cache c !! k) ∧
     (is_Some (local_cache c !! key) → size (local_cache c') = size (local_cache c))) ∧
  (∀ (c : closure K V V) v1 v2, local_cache c !! key = None →
     let c1 := (unbounded_call key c).1 in
     let c2 := (unbounded_call key c1).1 in
     let c3 := (unbounded_resume (E:=E) key (Returned v2) c2).1 in
     let c4 := (unbounded_resume (E:=E) key (Returned v1) c3).1 in
     (unbounded_call key c).2 = Await ∧ (unbounded_call key c1).2 = Await ∧
     local_cache c3 !! key = Some v2 ∧
     local_cache c4 !! key = Some v1 ∧
     size (local_cache c3) = S (size (local_cache c)) ∧
     size (local_cache c4) = S (size (local_cache c)) ∧
     misses c4 = 2 + misses c).
Proof.
  split_and!.
  - done.
  - intros c result c'. simpl. split_and!.
    + by rewrite lookup_insert_eq.
    + intros k Hk. by rewrite lookup_insert_ne.
    + intros [v Hv]. by erewrite map_size_insert_Some.
  - intros c v1 v2 Hnone c1 c2 c3 c4.
    unfold c4, c3, c2, c1, unbounded_call. rewrite Hnone. simpl. rewrite Hnone.
    simpl. rewrite !lookup_insert_eq.
    split_and!; try done.
    + by rewrite map_size_insert_None.
    + erewrite map_size_insert_Some by (by rewrite lookup_insert_eq).
      by rewrite map_size_insert_None.
Qed.

End claims.

(** ** Keys *)

Section make_key_facts.
Context {obj : Type} `{PyObject obj}.
Implicit Types (x y : obj) (args : list obj) (kwds : list (obj * obj)).

Local Abbreviation R := (λ x y : obj, py_eq x y = true).

Lemma foldl_flat_kwds kwds (acc : list obj) :
  foldl (λ key item, key ++ [item.1; item.2]) acc kwds = acc ++ flat_kwds kwds.
Proof.
  revert acc. induction kwds as [|item kwds IH]; intros acc; simpl.
  - by rewrite app_nil_r.
  - rewrite IH. unfold flat_kwds. simpl. by rewrite <-(assoc_L (++)).
Qed.

Lemma unwrapped_inv args kwds typed :
  unwrapped args kwds typed = true →
  typed = false ∧ kwds = [] ∧ ∃ x, args = [x] ∧ is_fast_type (py_type x) = true.
Proof.
  unfold unwrapped. destruct typed; [done|]. simpl.
  destruct kwds; [|done]. destruct args as [|x [|??]]; try done. eauto.
Qed.

Lemma make_key_bare x n :
  is_fast_type (py_type x) = true → _make_key [x] [] false n = (Bare x, n).
Proof. intros Hfast. unfold _make_key. simpl. by rewrite Hfast. Qed.

Lemma make_key_wrapped args kwds typed n :
  unwrapped args kwds typed = false →
  let key := flat_key args kwds typed in
  _make_key args kwds typed n = (Hashed (HashedSeq key (py_hash key)), S n).
Proof.
  intros Hun key. unfold _make_key, key, flat_key.
  destruct typed.
  - destruct kwds as [|item kwds].
    + simpl. by rewrite app_nil_r.
    + rewrite foldl_flat_kwds. by rewrite <-!(assoc_L (++)).
  - rewrite app_nil_r. destruct kwds as [|item kwds].
    + rewrite app_nil_r. destruct args as [|x [|y args]]; try done.
      unfold unwrapped in Hun. simpl in Hun. by rewrite Hun.
    + rewrite foldl_flat_kwds, <-(assoc_L (++)).
      destruct args as [|x [|y args]]; done.
Qed.

Lemma list_eq_Forall2 (xs ys : list obj) :
  list_eq xs ys = true ↔ Forall2 R xs ys.
Proof.
  revert ys. induction xs as [|x xs IH]; intros [|y ys]; simpl.
  - split; [constructor|done].
  - split; [done|]. intros Hf. inversion Hf.
  - split; [done|]. intros Hf. inversion Hf.
  - rewrite andb_true_iff, IH. split.
    + intros [? ?]. by constructor.
    + intros Hf. by inversion Hf.
Qed.

(** A marked position of one sequence meets the marked position of the
    other, when nothing before either mark is equal to the mark. *)
Lemma Forall2_marks (l1 r1 l2 r2 : list obj) m :
  (∀ z, z ∈ l2 → py_eq m z = false) → (∀ z, z ∈ l1 → py_eq z m = false) →
  Forall2 R (l1 ++ m :: r1) (l2 ++ m :: r2) →
  Forall2 R l1 l2 ∧ Forall2 R r1 r2.
Proof.
  revert l2. induction l1 as [|x l1 IH]; intros [|y l2] H2 H1 Hf; simpl in *.
  - inversion Hf; subst. split; [constructor|done].
  - inversion Hf as [|???? Hmy]; subst. rewrite H2 in Hmy by left. done.
  - inversion Hf as [|???? Hxm]; subst. rewrite H1 in Hxm by left. done.
  - inversion Hf; subst. destruct (IH l2) as [? ?]; [| |done|].
    + intros z Hz. apply H2. by right.
    + intros z Hz. apply H1. by right.
    + split; [by constructor|done].
Qed.

Lemma Forall2_mark_l (l1 r1 l2 : list obj) m :
  (∀ z, z ∈ l2 → py_eq m z = false) → ¬ Forall2 R (l1 ++ m :: r1) l2.
Proof.
  intros H2 Hf. apply Forall2_app_inv_l in Hf as (k1 & k2 & _ & Hf & ->).
  inversion Hf as [|? y ?? Hmy]; subst.
  rewrite H2 in Hmy; [done|]. apply elem_of_app. right. left.
Qed.

Lemma Forall2_mark_r (l1 : list obj) l2 r2 m :
  (∀ z, z ∈ l1 → py_eq z m = false) → ¬ Forall2 R l1 (l2 ++ m :: r2).
Proof.
  intros H1 Hf. apply Forall2_app_inv_r in Hf as (k1 & k2 & _ & Hf & ->).
  inversion Hf as [|x ??? Hxm]; subst.
  rewrite H1 in Hxm; [done|]. apply elem_of_app. right. left.
Qed.

Lemma flat_kwds_length kwds : length (flat_kwds kwds) = 2 * length kwds.
Proof.
  induction kwds as [|item kwds IH]; [done|].
  change (flat_kwds (item :: kwds)) with ([item.1; item.2] ++ flat_kwds kwds).
  rewrite length_app, IH. simpl. lia.
Qed.

Lemma flat_kwds_Forall2 kwds1 kwds2 :
  Forall2 R (flat_kwds kwds1) (flat_kwds kwds2) ↔ same_kwds kwds1 kwds2.
Proof.
  unfold same_kwds, flat_kwds.
  revert kwds2. induction kwds1 as [|p k1 IH]; intros [|q k2]; simpl.
  - split; constructor.
  - split; intros Hf; inversion Hf.
  - split; intros Hf; inversion Hf.
  - split.
    + intros Hf. inversion Hf as [|???? Hn Hf']; subst.
      inversion Hf' as [|???? Hv Hf'']; subst.
      constructor; [done|]. by apply IH.
    + intros Hf. inversion Hf as [|???? [Hn Hv] Hf']; subst.
      constructor; [done|]. constructor; [done|]. by apply IH.
Qed.

Lemma mark_free_elem args kwds x :
  mark_free args kwds →
  x ∈ args ∨ x ∈ flat_kwds kwds ∨ x ∈ py_type <$> args ∨ x ∈ py_type <$> kwds.*2 →
  py_eq kwd_mark x = false ∧ py_eq x kwd_mark = false.
Proof. intros Hfree Hx. apply Hfree. rewrite !elem_of_app. tauto. Qed.

(** The sequences two calls are flattened to are equal, element by element,
    exactly when the calls have equal arguments and, in typed mode, equal
    types. *)
Lemma flat_key_Forall2 args1 kwds1 args2 kwds2 typed :
  py_eq kwd_mark kwd_mark = true →
  mark_free args1 kwds1 → mark_free args2 kwds2 →
  Forall2 R (flat_key args1 kwds1 typed) (flat_key args2 kwds2 typed) ↔
  same_args args1 args2 ∧ same_kwds kwds1 kwds2 ∧
  (typed = true → same_types args1 kwds1 args2 kwds2).
Proof.
  intros Hmm Hf1 Hf2. unfold flat_key, same_types, same_args. split.
  - intros Hf. destruct kwds1 as [|p1 k1], kwds2 as [|p2 k2].
    + simpl in Hf. destruct typed.
      * rewrite !app_nil_r in Hf. pose proof (Forall2_length _ _ _ Hf) as Hlen.
        rewrite !length_app, !length_fmap in Hlen.
        apply Forall2_app_inv in Hf as [? ?]; [|lia].
        split_and!; [done|constructor|]. intros _. split; [done|constructor].
      * rewrite !app_nil_r in Hf. split_and!; [done|constructor|done].
    + exfalso. simpl in Hf. eapply Forall2_mark_r; [|exact Hf].
      intros z Hz. apply (mark_free_elem args1 [] z Hf1).
      destruct typed; rewrite ?app_nil_r in Hz;
        [apply elem_of_app in Hz as [?|?]|]; tauto.
    + exfalso. simpl in Hf. eapply Forall2_mark_l; [|exact Hf].
      intros z Hz. apply (mark_free_elem args2 [] z Hf2).
      destruct typed; rewrite ?app_nil_r in Hz;
        [apply elem_of_app in Hz as [?|?]|]; tauto.
    + lazy beta iota in Hf. rewrite <-!app_comm_cons in Hf.
      apply Forall2_marks in Hf as [Ha Hrest].
      * pose proof (Forall2_length _ _ _ Ha) as Hlen_a.
        destruct typed.
        -- pose proof (Forall2_length _ _ _ Hrest) as Hlen.
           rewrite !length_app, !length_fmap, !flat_kwds_length in Hlen.
           apply Forall2_app_inv in Hrest as [Hk Ht];
             [|rewrite !flat_kwds_length; lia].
           apply Forall2_app_inv in Ht as [? ?]; [|rewrite !length_fmap; lia].
           split_and!; [done|by apply flat_kwds_Forall2|done].
        -- rewrite !app_nil_r in Hrest.
           split_and!; [done|by apply flat_kwds_Forall2|done].
      * intros z Hz. apply (mark_free_elem args2 (p2 :: k2) z Hf2). tauto.
      * intros z Hz. apply (mark_free_elem args1 (p1 :: k1) z Hf1). tauto.
  - intros (Ha & Hk & Ht). apply Forall2_app; [done|]. apply Forall2_app.
    + destruct Hk as [|p1 p2 k1 k2 Hp Hk]; [constructor|].
      constructor; [done|].
      apply (flat_kwds_Forall2 (p1 :: k1) (p2 :: k2)). by constructor.
    + destruct typed; [|constructor].
      destruct (Ht eq_refl) as [? ?]. by apply Forall2_app.
Qed.

(** C6, as amended. Two calls get equal keys exactly when they have equal
    arguments, in value and order, equal types when [typed] is set, and
    when both or none of them are the case of line 60, in which one
    argument of type [int] or [str] is its own key: such a key is never
    equal to the [_HashedSeq] of an equal argument of another type. Named
    arguments in another order are other arguments. *)
Theorem make_key_equal_iff args1 kwds1 args2 kwds2 typed n1 n2 :
  py_eq kwd_mark kwd_mark = true →
  mark_free args1 kwds1 → mark_free args2 kwds2 →
  (key_eq (_make_key args1 kwds1 typed n1).1 (_make_key args2 kwds2 typed n2).1 = true ↔
   same_args args1 args2 ∧ same_kwds kwds1 kwds2 ∧
   (typed = true → same_types args1 kwds1 args2 kwds2) ∧
   unwrapped args1 kwds1 typed = unwrapped args2 kwds2 typed) ∧
  (¬ same_kwds kwds1 kwds2 →
   key_eq (_make_key args1 kwds1 typed n1).1 (_make_key args2 kwds2 typed n2).1 = false) ∧
  (∀ item1 item2, py_eq item1.1 item2.1 = false →
     ¬ same_kwds [item1; item2] [item2; item1]).
Proof.
  intros Hmm Hf1 Hf2.
  assert (key_eq (_make_key args1 kwds1 typed n1).1 (_make_key args2 kwds2 typed n2).1 = true ↔
   same_args args1 args2 ∧ same_kwds kwds1 kwds2 ∧
   (typed = true → same_types args1 kwds1 args2 kwds2) ∧
   unwrapped args1 kwds1 typed = unwrapped args2 kwds2 typed) as Hiff.
  { destruct (unwrapped args1 kwds1 typed) eqn:Hu1,
             (unwrapped args2 kwds2 typed) eqn:Hu2.
    - apply unwrapped_inv in Hu1 as (-> & -> & x & -> & Hx).
      apply unwrapped_inv in Hu2 as (_ & -> & y & -> & Hy).
      rewrite !make_key_bare by done. simpl. unfold same_args. split.
      + intros Hxy. split_and!; [by repeat constructor|constructor|done|done].
      + intros (Ha & _). by inversion Ha.
    - apply unwrapped_inv in Hu1 as (-> & -> & x & -> & Hx).
      rewrite make_key_bare, make_key_wrapped by done. simpl.
      split; [done|]. by intros (_ & _ & _ & ?).
    - apply unwrapped_inv in Hu2 as (-> & -> & y & -> & Hy).
      rewrite make_key_bare, make_key_wrapped by done. simpl.
      split; [done|]. by intros (_ & _ & _ & ?).
    - rewrite !make_key_wrapped by done. simpl. unfold HashedSeq_eq. simpl.
      rewrite list_eq_Forall2, flat_key_Forall2 by done. tauto. }
  split_and!; [done| |].
  - intros Hk. apply not_true_is_false. rewrite Hiff. tauto.
  - intros item1 item2 Hne Hs. inversion Hs as [|???? [Hn _] _]; subst.
    congruence.
Qed.

(** C7. When [typed] is off, there are no named arguments and the only
    argument has one of the fast types, [_make_key] returns this argument
    and takes no hash. In every other case it returns a [_HashedSeq] of the
    flat sequence; the hash of the sequence is taken once, when the
    [_HashedSeq] is made, and [__hash__] returns it from then on without
    taking it again. *)
Theorem make_key_bare_or_hashed args kwds typed n :
  (unwrapped args kwds typed = true ↔
   typed = false ∧ kwds = [] ∧ ∃ x, args = [x] ∧ is_fast_type (py_type x) = true) ∧
  (unwrapped args kwds typed = true →
   ∃ x, args = [x] ∧ _make_key args kwds typed n = (Bare x, n)) ∧
  (unwrapped args kwds typed = false →
   ∃ s, _make_key args kwds typed n = (Hashed s, S n) ∧
        hs_items s = flat_key args kwds typed ∧
        hash_value s = py_hash (hs_items s) ∧
        ∀ m, HashedSeq_hash s m = (py_hash (hs_items s), m)).
Proof.
  split_and!.
  - split; [apply unwrapped_inv|].
    intros (-> & -> & x & -> & Hx). unfold unwrapped. by simpl.
  - intros (-> & -> & x & -> & Hx)%unwrapped_inv.
    exists x. split; [done|]. by apply make_key_bare.
  - intros Hun. eexists. split; [by apply make_key_wrapped|]. simpl.
    by split_and!.
Qed.

End make_key_facts.


(** ** The eviction branch between its statements *)

Section eviction_facts.
Context {K : Type} `{Countable K} {V : Type} `{PyNone V} {E : Type}.

(** The nine statements are the eviction branch of [lru_resume]. *)
Lemma evict_program_resume (maxsize : Z) (key : K) (result : V)
    (c : closure K V addr) :
  full c = true → local_cache c !! key = None →
  is_Some (dict_del (fr_old_key (evict_after 5 key result c)) (local_cache c)) →
  fr_closure (evict_after 9 key result c) =
    (lru_resume (E:=E) maxsize key (Returned result) c).1.
Proof.
  intros Hfull Hnone. unfold lru_resume.
  rewrite decide_False by (rewrite Hnone; by intros [? ?]).
  rewrite Hfull. unfold evict_after, evict_program. simpl.
  intros [d Hd]. rewrite Hd. unfold with_cache, with_heap, with_root. simpl.
  by rewrite Hfull.
Qed.

End eviction_facts.

(** C5. [lru_cache(maxsize=1)], a call with key [1] that returned [10], then
    a call with key [2] that returns [20] and evicts. The statements of
    lines 171-188 are the eviction branch of the wrapper. Up to the first
    half of line 182 one link holds the old result [10]; the second half of
    line 182 stores [None] over it, and no link and no local variable holds
    it any more. At this point the dictionary has no entry for the new key
    [2], and its entry for the old key [1] is the emptied link that is now
    the root, while the ring holds the link of key [2]: ring and dictionary
    do not agree. The old key, which [old_key] refers to, is held all the
    way through. *)
Theorem evicted_result_released_early :
  let fr := evict_after 7 2%Z 20%Z one_entry in
  fr_closure (evict_after 9 2%Z 20%Z one_entry) =
    (lru_resume (E:=unit) 1 2%Z (Returned 20%Z) one_entry).1 ∧
  result_refs 10%Z 20%Z (evict_after 6 2%Z 20%Z one_entry) = 1 ∧
  result_refs 10%Z 20%Z fr = 0 ∧
  local_cache (fr_closure fr) !! 2%Z = None ∧
  local_cache (fr_closure fr) !! 1%Z = Some (root (fr_closure fr)) ∧
  ring_keys (fr_closure fr) = Some [2%Z] ∧
  ¬ ring_index_agree (fr_closure fr) ∧
  (∀ n, 0 < key_refs 1%Z 2%Z (evict_after n 2%Z 20%Z one_entry)).
Proof.
  intros fr. split_and!; try (vm_compute; reflexivity).
  - intros (xs & Hfwd & _ & _ & _ & _ & _ & Hidx & _).
    assert (ring_forward (fr_closure fr) = Some [0]) as Hfwd'
      by (vm_compute; reflexivity).
    assert (local_cache (fr_closure fr) !! 1%Z = Some 1) as Hold
      by (vm_compute; reflexivity).
    rewrite Hfwd' in Hfwd. injection Hfwd as <-.
    apply Hidx in Hold as [Hin _].
    by apply list_elem_of_singleton in Hin.
  - intros n. do 10 (destruct n as [|n]; [vm_compute; lia|]).
    vm_compute. lia.
Qed.

(** ** The claims at concrete inputs *)

Ltac decided := apply (bool_decide_unpack _); vm_compute; exact I.

(** Scenario A of the specification ends in a hit; the sixth call of the
    wrapper is a miss. *)
Lemma scenario_A_sixth_call_misses :
  (lru_calls_alone (E:=unit) 2 times_ten [1; 2; 1; 3; 2; 1]%Z new_closure).2.*1
    ≠ [false; false; true; false; false; true].
Proof. vm_compute. discriminate. Qed.

Lemma lru_eviction_order_witness :
  (let res := lru_calls_alone (E:=unit) 2 times_ten [1; 2; 3]%Z new_closure in
   res.2.*1 = [false; false; false] ∧ ring_keys res.1 = Some [2; 3]%Z ∧
   is_hit 1%Z res.1 = false ∧ ∀ k, k ∈ [2; 3]%Z → is_hit k res.1 = true) ∧
  (let res := lru_calls_alone (E:=unit) 2 times_ten [1; 2; 1; 3]%Z new_closure in
   res.2.*1 = [false; false; true; false] ∧ ring_keys res.1 = Some [1; 3]%Z ∧
   is_hit 2%Z res.1 = false ∧ ∀ k, k ∈ [1; 3]%Z → is_hit k res.1 = true) ∧
  (lru_calls_alone (E:=unit) 2 times_ten [1; 2; 1; 3; 2; 1]%Z new_closure).2.*1
    = [false; false; true; false; false; false].
Proof.
  destruct (lru_eviction_order (E:=unit) 2 times_ten ltac:(lia))
    as (_ & _ & H1 & H2 & H3).
  split_and!.
  - apply (H1 1%Z [2; 3]%Z); [decided|reflexivity].
  - apply (H2 1%Z 2%Z [] [3%Z]); [decided|done|reflexivity].
  - apply (H3 eq_refl 1%Z 2%Z 3%Z). decided.
Defined.

Lemma lru_race_keeps_entry_witness :
  let c0 := lru_run (E:=unit) 2 [EvCall 1%Z; EvResume 1%Z (Returned 10%Z)] in
  let c2 := (lru_call 2%Z (lru_call 2%Z c0).1).1 in
  let c3 := (lru_resume (E:=unit) 2 2%Z (Returned 22%Z) c2).1 in
  lru_resume (E:=unit) 2 2%Z (Returned 21%Z) c3 = (c3, Return 21%Z) ∧
  (∃ a, local_cache c3 !! 2%Z = Some a ∧
        link_result_field (heap c3 !!! a) = 22%Z ∧
        link_key_field (heap c3 !!! a) = Some 2%Z) ∧
  (∃ l1 l2, ring_keys c3 = Some (l1 ++ 2%Z :: l2) ∧ 2%Z ∉ l1 ++ l2).
Proof.
  destruct (lru_race_keeps_entry (K:=Z) (V:=Z) (E:=unit) 2 ltac:(lia)) as (_ & _ & H3).
  destruct (H3 [EvCall 1%Z; EvResume 1%Z (Returned 10%Z)] 2%Z 21%Z 22%Z
              ltac:(vm_compute; reflexivity)) as (_ & _ & _ & Ha & Hb & Hc & _).
  exact (conj Ha (conj Hb Hc)).
Defined.

Lemma lru_ring_index_agree_witness :
  ring_index_agree
    (lru_run (E:=unit) 2
       [EvCall 1%Z; EvResume 1%Z (Returned 10%Z); EvCall 2%Z;
        EvResume 2%Z (Returned 20%Z); EvCall 1%Z; EvCall 3%Z; EvClear;
        EvResume 3%Z (Returned 30%Z)]).
Proof.
  destruct (lru_ring_index_agree (K:=Z) (V:=Z) (E:=unit) 2 ltac:(lia))
    as (_ & _ & _ & Hrun).
  apply Hrun.
Defined.

Lemma lru_currsize_bounded_witness :
  let c := lru_run (E:=unit) 1 [EvCall 1%Z; EvResume 1%Z (Returned 10%Z)] in
  let c' := (lru_resume (E:=unit) 1 2%Z (Returned 20%Z) c).1 in
  (Z.of_nat (ci_currsize (cache_info (Some 1%Z) c)) ≤ 1)%Z ∧
  size (local_cache c') = size (local_cache c) ∧
  length (heap c') = length (heap c) ∧ full c' = true.
Proof.
  destruct (lru_currsize_bounded (K:=Z) (V:=Z) (E:=unit) 1
              [EvCall 1%Z; EvResume 1%Z (Returned 10%Z)] ltac:(lia))
    as (Hle & _ & Hfull).
  destruct (Hfull ltac:(vm_compute; reflexivity) 2%Z 20%Z ltac:(vm_compute; reflexivity))
    as (_ & Hsize & Hlen & Hf & _).
  exact (conj Hle (conj Hsize (conj Hlen Hf))).
Defined.

Lemma miss_then_failure_witness :
  unbounded_call 1%Z (new_closure : closure Z Z Z) =
    (Closure ∅ 0 1 false 0 [Link 0 0 None 0%Z], Await) ∧
  unbounded_resume 1%Z (Raised tt) (new_closure : closure Z Z Z) =
    (new_closure, Raise (UserError tt)) ∧
  lru_call 1%Z (new_closure : closure Z Z addr) =
    (Closure ∅ 0 1 false 0 [Link 0 0 None 0%Z], Await) ∧
  lru_resume 2 1%Z (Raised tt) (new_closure : closure Z Z addr) =
    (new_closure, Raise (UserError tt)).
Proof.
  destruct (miss_then_failure (K:=Z) (V:=Z) 1%Z tt) as (_ & Hu & Hl).
  destruct (Hu new_closure new_closure ltac:(vm_compute; reflexivity)) as [Hu1 Hu2].
  destruct (Hl 2%Z new_closure new_closure ltac:(vm_compute; reflexivity)) as [Hl1 Hl2].
  exact (conj Hu1 (conj Hu2 (conj Hl1 Hl2))).
Defined.

Lemma cache_clear_resets_witness :
  cache_info (Some 1%Z) (cache_clear one_entry) = CacheInfo 0 0 (Some 1%Z) 0 ∧
  local_cache (cache_clear one_entry) = ∅ ∧
  full (cache_clear one_entry) = false ∧
  ring_keys (cache_clear one_entry) = Some [].
Proof.
  destruct (cache_clear_resets (Some 1%Z) one_entry ltac:(vm_compute; lia))
    as (Hinfo & Hcache & Hfull & _ & _ & _ & _ & Hkeys & _).
  exact (conj Hinfo (conj Hcache (conj Hfull Hkeys))).
Defined.

Lemma unbounded_last_writer_wins_witness :
  let c1 := (unbounded_call 1%Z (new_closure : closure Z Z Z)).1 in
  let c2 := (unbounded_call 1%Z c1).1 in
  let c3 := (unbounded_resume (E:=unit) 1%Z (Returned 12%Z) c2).1 in
  let c4 := (unbounded_resume (E:=unit) 1%Z (Returned 11%Z) c3).1 in
  local_cache c3 !! 1%Z = Some 12%Z ∧ local_cache c4 !! 1%Z = Some 11%Z ∧
  size (local_cache c4) = 1.
Proof.
  destruct (unbounded_last_writer_wins (K:=Z) (V:=Z) (E:=unit) 1%Z) as (_ & _ & H3).
  destruct (H3 new_closure 11%Z 12%Z ltac:(vm_compute; reflexivity))
    as (_ & _ & Hc3 & Hc4 & _ & Hsize & _).
  exact (conj Hc3 (conj Hc4 Hsize)).
Defined.

(** ** Keys at concrete inputs *)

Ltac small_mark_free :=
  let x := fresh "x" in let Hx := fresh "Hx" in
  intros x Hx; vm_compute in Hx;
  repeat (apply elem_of_cons in Hx as [->|Hx]; [by vm_compute|]);
  by apply elem_of_nil in Hx.

(** Not typed: [f(1)] and [f(True)] have equal arguments, [1 == True], but
    the key of the first is the integer [1] and the key of the second a
    [_HashedSeq], and these are not equal. *)
Lemma make_key_int_and_bool_differ : ¬ keys_equal_iff_args_equal small_obj.
Proof.
  intros Hclaim.
  destruct (Hclaim [OInt 1] [] [OBool true] [] false 0) as [_ Heq].
  - small_mark_free.
  - small_mark_free.
  - assert (key_eq (_make_key [OInt 1] [] false 0).1
                   (_make_key [OBool true] [] false 0).1 = false) as Hne
      by (vm_compute; reflexivity).
    rewrite Heq in Hne; [done|]. split_and!.
    + by repeat constructor.
    + constructor.
    + done.
Qed.

Lemma make_key_equal_iff_witness :
  key_eq (_make_key [OBool true; OStr "a"] [(OStr "x", OInt 2)] false 0).1
         (_make_key [OInt 1; OStr "a"] [(OStr "x", OInt 2)] false 5).1 = true ∧
  key_eq (_make_key [] [(OStr "x", OInt 1); (OStr "y", OInt 2)] false 0).1
         (_make_key [] [(OStr "y", OInt 2); (OStr "x", OInt 1)] false 0).1 = false.
Proof.
  split.
  - destruct (make_key_equal_iff
                [OBool true; OStr "a"] [(OStr "x", OInt 2)]
                [OInt 1; OStr "a"] [(OStr "x", OInt 2)] false 0 5)
      as ((_ & Hiff) & _ & _).
    + reflexivity.
    + small_mark_free.
    + small_mark_free.
    + apply Hiff. split_and!.
      * by repeat constructor.
      * by repeat constructor.
      * done.
      * reflexivity.
  - destruct (make_key_equal_iff
                [] [(OStr "x", OInt 1); (OStr "y", OInt 2)]
                [] [(OStr "y", OInt 2); (OStr "x", OInt 1)] false 0 0)
      as (_ & Hne & Hswap).
    + reflexivity.
    + small_mark_free.
    + small_mark_free.
    + apply Hne. apply (Hswap (OStr "x", OInt 1) (OStr "y", OInt 2)). reflexivity.
Defined.

Lemma make_key_bare_or_hashed_witness :
  _make_key [OInt 5] [] false 0 = (Bare (OInt 5), 0) ∧
  (∃ s, _make_key [OBool true] [] false 0 = (Hashed s, 1) ∧
        hs_items s = [OBool true] ∧
        ∀ m, HashedSeq_hash s m = (py_hash [OBool true], m)).
Proof.
  split.
  - destruct (make_key_bare_or_hashed [OInt 5] [] false 0) as (_ & Hbare & _).
    destruct (Hbare eq_refl) as (x & Hx & Hkey).
    injection Hx as <-. exact Hkey.
  - destruct (make_key_bare_or_hashed [OBool true] [] false 0) as (_ & _ & Hwrap).
    destruct (Hwrap eq_refl) as (s & Hkey & Hitems & Hhash & Hagain).
    exists s. split; [exact Hkey|]. split; [exact Hitems|].
    intros m. rewrite (Hagain m). by rewrite Hitems.
Defined.

(** * More of the module *)

(** ** The counters *)

Section counters.
Context {K : Type} `{Countable K} {V : Type} `{PyNone V} {E : Type}.

Lemma lru_call_counters (key : K) (c : closure K V addr) :
  hits (lru_call key c).1 + misses (lru_call key c).1 = S (hits c + misses c).
Proof. unfold lru_call. destruct (local_cache c !! key); simpl; lia. Qed.

Lemma lru_resume_counters maxsize (key : K) (out : outcome V E) (c : closure K V addr) :
  hits (lru_resume maxsize key out c).1 = hits c ∧
  misses (lru_resume maxsize key out c).1 = misses c.
Proof.
  unfold lru_resume. destruct out; [|done]. case_decide; [done|].
  destruct (full c); [|done]. by destruct (dict_del _ _).
Qed.

Lemma unbounded_call_counters (key : K) (c : closure K V V) :
  hits (unbounded_call key c).1 + misses (unbounded_call key c).1 =
    S (hits c + misses c).
Proof. unfold unbounded_call. destruct (local_cache c !! key); simpl; lia. Qed.

Lemma calls_since_clear_snoc (evs : list (event K V E)) ev :
  calls_since_clear (evs ++ [ev]) =
    match ev with
    | EvCall _ => S (calls_since_clear evs)
    | EvResume _ _ => calls_since_clear evs
    | EvClear => 0
    end.
Proof. unfold calls_since_clear. by rewrite foldl_snoc. Qed.

(** X1. The statistics account for every call: in each of the three wrappers
    [hits + misses] is the number of calls begun since the last
    [cache_clear], whatever [maxsize] is and however the calls interleave;
    without a cache all of them are misses. *)
Theorem calls_are_counted (maxsize : Z) (evs : list (event K V E)) :
  hits (lru_run maxsize evs) + misses (lru_run maxsize evs) = calls_since_clear evs ∧
  hits (unbounded_run evs) + misses (unbounded_run evs) = calls_since_clear evs ∧
  hits (disabled_run (X:=unit) evs) = 0 ∧
  misses (disabled_run (X:=unit) evs) = calls_since_clear evs.
Proof.
  induction evs as [|ev evs IH] using rev_ind; [done|].
  destruct IH as (IHl & IHu & IHd0 & IHd).
  unfold lru_run, unbounded_run, disabled_run in *.
  rewrite !foldl_snoc, calls_since_clear_snoc.
  destruct ev as [key|key out|]; simpl.
  - rewrite lru_call_counters, unbounded_call_counters, IHl, IHu, IHd0, IHd. done.
  - destruct (lru_resume_counters maxsize key out
                (foldl (lru_step maxsize) new_closure evs)) as [-> ->].
    split_and!; [done| |by destruct out|by destruct out].
    by destruct out.
  - done.
Qed.

End counters.

(** ** More about the size limited cache *)

Section bounded_more.
Context {K : Type} `{Countable K} {V : Type} `{PyNone V} {E : Type}.
Implicit Types (c : closure K V addr) (ents : list (K * addr)) (key k : K).

(** *** What the assignments leave alone *)

Lemma lru_call_results key c a :
  link_result_field (heap (lru_call key c).1 !!! a) = link_result_field (heap c !!! a).
Proof.
  unfold lru_call. destruct (local_cache c !! key); [|done].
  simpl. by autorewrite with store.
Qed.

Lemma lru_call_shape key c :
  local_cache (lru_call key c).1 = local_cache c ∧
  length (heap (lru_call key c).1) = length (heap c) ∧
  full (lru_call key c).1 = full c ∧ root (lru_call key c).1 = root c.
Proof.
  unfold lru_call. destruct (local_cache c !! key); [|done].
  simpl. by autorewrite with store.
Qed.

Lemma lru_resume_insert_results maxsize key result c a :
  full c = false → local_cache c !! key = None → a < length (heap c) →
  link_result_field (heap (lru_resume (E:=E) maxsize key (Returned result) c).1 !!! a)
    = link_result_field (heap c !!! a).
Proof.
  intros Hfull Hnone Ha. unfold lru_resume.
  rewrite decide_False by (rewrite Hnone; by intros [? ?]).
  rewrite Hfull. simpl. autorewrite with store. by rewrite lookup_total_app_l.
Qed.

Lemma lru_resume_evict_results maxsize c k0 a0 ents key result a :
  lru_rep c ((k0, a0) :: ents) → key ∉ k0 :: ents.*1 → full c = true →
  a ≠ root c → a ≠ a0 →
  link_result_field (heap (lru_resume (E:=E) maxsize key (Returned result) c).1 !!! a)
    = link_result_field (heap c !!! a).
Proof.
  intros Hrep Hk Hfull Har Haa. unfold lru_resume.
  pose proof (proj2 (lru_rep_lookup_None _ ((k0, a0) :: ents) _ Hrep) Hk) as Hnone.
  rewrite decide_False by (rewrite Hnone; by intros [? ?]).
  rewrite Hfull.
  assert (local_cache c !! k0 = Some a0) as Hk0.
  { apply (lru_rep_lookup _ _ _ _ Hrep). left. }
  destruct Hrep as (Hring & Hnd & Hcache & Hkeys & Hroot).
  simpl in Hring, Hnd.
  set (h := heap c) in *. set (r := root c) in *.
  assert (r < length h) as Hr by (eapply ring_lt; [done|left]).
  assert (a0 < length h) as Ha0 by (eapply ring_lt; [done|right; left]).
  assert (link_next_field (h !!! r) = a0) as Hnext.
  { destruct Hring as (_ & _ & Hch). simpl in Hch. by destruct Hch as [? _]. }
  assert (r ≠ a0) as Hra.
  { destruct Hring as [[Hnr _]%NoDup_cons _]. intros ->. apply Hnr. left. }
  apply Forall_cons in Hkeys as [Hkey0 Hkeys]. simpl in Hkey0.
  autorewrite with store. rewrite Hnext. autorewrite with store.
  rewrite decide_False by done. rewrite Hkey0. simpl.
  rewrite decide_True by (by rewrite Hk0). simpl.
  autorewrite with store. by rewrite !decide_False.
Qed.

(** *** The second half always returns *)


(** *** Runs and the list of keys *)

(** X3. However calls and [cache_clear]s interleave, the keys on the ring,
    oldest first, are those the list of keys gives for the run: the first
    half of a call moves a cached key to the end, the second half appends a
    key that is not cached, dropping the first key when [maxsize] are there,
    and [cache_clear] empties the list. The dictionary has exactly these
    keys, each once, and never more than [maxsize]. *)
Theorem lru_run_keys (maxsize : Z) (evs : list (event K V E)) :
  (0 < maxsize)%Z →
  let c := lru_run maxsize evs in
  let ks := foldl (keys_step maxsize) [] evs in
  ring_keys c = Some ks ∧ NoDup ks ∧
  (∀ k, is_Some (local_cache c !! k) ↔ k ∈ ks) ∧
  (∀ k, is_hit k c = bool_decide (k ∈ ks)) ∧
  (Z.of_nat (length ks) ≤ maxsize)%Z.
Proof.
  intros Hpos c ks. pose proof (lru_order_run maxsize evs Hpos) as Hord.
  fold c ks in Hord. pose proof Hord as (ents & (Hrep & _ & Hle) & Hks).
  split_and!.
  - rewrite <-Hks. by apply lru_rep_keys.
  - rewrite <-Hks. by destruct Hrep as (_ & ? & _).
  - intros k. rewrite <-Hks. split.
    + intros [a Ha]. apply (lru_rep_lookup _ _ _ _ Hrep) in Ha.
      apply list_elem_of_fmap. by exists (k, a).
    + intros ([k' a] & -> & Hin)%list_elem_of_fmap. exists a.
      by apply (lru_rep_lookup _ _ _ _ Hrep).
  - intros k. by eapply is_hit_order.
  - by rewrite <-Hks, length_fmap.
Qed.

(** *** A call that is suspended while the cache is cleared *)


(** *** Links are not leaked *)

Lemma lru_step_no_leak maxsize c (ev : event K V E) :
  ev ≠ EvClear →
  length (heap c) = S (size (local_cache c)) →
  length (heap (lru_step maxsize c ev)) = S (size (local_cache (lru_step maxsize c ev))).
Proof.
  intros Hev Hlen. destruct ev as [key|key [result|e]|]; simpl; [| |done|done].
  - destruct (lru_call_shape key c) as (-> & -> & _). done.
  - unfold lru_resume. case_decide as Hin; [done|].
    assert (local_cache c !! key = None) as Hnone.
    { destruct (local_cache c !! key) eqn:Hl; [|done]. exfalso. by apply Hin. }
    destruct (full c).
    + destruct (dict_del _ _) as [d|] eqn:Hdel; simpl.
      * autorewrite with store. rewrite Hlen. f_equal.
        unfold dict_del in Hdel.
        destruct (link_key_field _) as [k0|]; [|done]. case_decide as Hk0; [|done].
        injection Hdel as <-. destruct Hk0 as [a0 Hk0].
        assert (k0 ≠ key) by (intros ->; congruence).
        rewrite map_size_insert_None by (by rewrite lookup_delete_ne).
        pose proof (map_size_delete_Some k0 (local_cache c) (mk_is_Some _ _ Hk0)) as Hd.
        assert (size (local_cache c) ≠ 0).
        { intros Hz%map_size_empty_iff. by rewrite Hz, lookup_empty in Hk0. }
        lia.
      * by autorewrite with store.
    + simpl. autorewrite with store. rewrite length_app. simpl.
      rewrite map_size_insert_None by done. lia.
Qed.

(** X5. As long as the cache is not cleared, the store holds the root and one
    link for each key of the dictionary and nothing else: evicting reuses
    a link, and at most [maxsize] links are ever made. *)
Theorem no_clear_no_leak (maxsize : Z) (evs : list (event K V E)) :
  (0 < maxsize)%Z → no_clear evs →
  length (heap (lru_run maxsize evs)) = S (size (local_cache (lru_run maxsize evs))) ∧
  (Z.of_nat (length (heap (lru_run maxsize evs))) ≤ 1 + maxsize)%Z.
Proof.
  intros Hpos Hnc.
  assert (length (heap (lru_run maxsize evs)) =
          S (size (local_cache (lru_run maxsize evs)))) as Hlen.
  { induction evs as [|ev evs IH] using rev_ind; [done|].
    apply Forall_app in Hnc as [Hnc [Hev _]%Forall_cons].
    unfold lru_run. rewrite foldl_snoc. apply lru_step_no_leak; [done|].
    by apply IH. }
  split; [done|]. rewrite Hlen.
  destruct (lru_inv_run maxsize evs Hpos) as (ents & Hrep & _ & Hle).
  rewrite (lru_rep_size _ _ Hrep). lia.
Qed.

End bounded_more.

(** ** Results of calls that run alone *)

Section bounded_alone.
Context {K : Type} `{Countable K} {V : Type} `{PyNone V} {E : Type}.
Implicit Types (c : closure K V addr) (ents : list (K * addr)) (key k : K).

(** One call that runs alone: what it returns is on the link of its key
    afterwards; after a miss this is what [user_function] returned. *)
Lemma lru_call_alone_stored maxsize (f : K → V) key c ents :
  (0 < maxsize)%Z → lru_state maxsize c ents →
  ∃ ents' a v,
    let res := lru_call_alone (E:=E) maxsize f key c in
    res.2.2 = Return v ∧ lru_state maxsize res.1 ents' ∧
    (key, a) ∈ ents' ∧ link_result_field (heap res.1 !!! a) = v ∧
    (res.2.1 = false → v = f key) ∧
    (lru_vals f c ents → lru_vals f res.1 ents' ∧ v = f key).
Proof.
  intros Hpos (Hrep & Hfull & Hle). unfold lru_call_alone.
  destruct (decide (key ∈ ents.*1)) as [Hin|Hnotin].
  - apply list_elem_of_fmap in Hin as ([k' a] & -> & Hin). simpl.
    apply list_elem_of_split in Hin as (e1 & e2 & ->).
    pose proof (lru_call_results k' c) as Hres.
    destruct (lru_call_hit _ _ _ _ _ Hrep)
      as (c' & Hcall & Hrep' & _ & _ & _ & Hf & _).
    rewrite Hcall in Hres |- *. simpl in Hres |- *.
    assert (e1 ++ e2 ++ [(k', a)] ≡ₚ e1 ++ (k', a) :: e2) as Hperm.
    { apply Permutation_app_head. by rewrite Permutation_app_comm. }
    exists (e1 ++ e2 ++ [(k', a)]), a, (link_result_field (heap c !!! a)).
    split_and!; [done| | |done|done|].
    + split_and!; [done| |by rewrite Hperm].
      rewrite Hf, Hfull. apply bool_decide_ext. by rewrite Hperm.
    + rewrite !elem_of_app, list_elem_of_singleton. tauto.
    + intros Hvals. unfold lru_vals in *. split.
      * rewrite Hperm. eapply Forall_impl; [done|]. simpl. intros e He.
        by rewrite Hres.
      * apply (proj1 (Forall_forall _ _) Hvals (k', a)).
        apply elem_of_app. right. left.
  - destruct (lru_call_miss _ _ _ Hrep Hnotin)
      as (c1 & -> & Hrep1 & Hc1 & _ & _ & Hf1 & Hr1 & Hh1).
    assert (local_cache c1 !! key = None) as Hnone.
    { by apply (lru_rep_lookup_None _ _ _ Hrep1). }
    destruct (decide (Z.of_nat (length ents) < maxsize)%Z) as [Hlt|Hge].
    + rewrite bool_decide_eq_false_2 in Hfull by lia.
      assert (full c1 = false) as Hfull1 by congruence.
      pose proof (lru_resume_insert_results (E:=E) maxsize key (f key) c1) as Hold.
      destruct (lru_resume_insert (E:=E) maxsize _ _ _ (f key) Hrep1 Hnotin Hfull1)
        as (c' & Hres & Hrep' & _ & _ & _ & _ & Hf & _ & Hval).
      rewrite Hres in Hold |- *. simpl in Hold |- *.
      exists (ents ++ [(key, length (heap c1))]), (length (heap c1)), (f key).
      split_and!; [done| | |done|done|].
      * split_and!; [done| |rewrite length_app; simpl; lia].
        rewrite Hf. apply bool_decide_ext. rewrite length_app. simpl. lia.
      * apply elem_of_app. right. left.
      * intros Hvals. split; [|done]. unfold lru_vals in *.
        apply Forall_app. split; [|by apply Forall_singleton].
        eapply Forall_forall. intros e He.
        eapply Forall_forall in Hvals; [|done].
        rewrite Hold; [by rewrite Hh1|done|done|].
        destruct Hrep1 as (Hring & _). eapply ring_lt; [done|]. right.
        apply list_elem_of_fmap. by exists e.
    + rewrite bool_decide_eq_true_2 in Hfull by lia.
      assert (full c1 = true) as Hfull1 by congruence.
      destruct ents as [|[k0 a0] ents]; [simpl in *; lia|].
      pose proof (lru_resume_evict_results (E:=E) maxsize c1 k0 a0 ents key (f key))
        as Hold.
      destruct (lru_resume_evict (E:=E) maxsize _ _ _ _ _ (f key) Hrep1 Hnotin Hfull1)
        as (c' & Hres & Hrep' & _ & _ & _ & _ & Hf & _ & Hval & _).
      rewrite Hres in Hold |- *. simpl in Hold |- *.
      exists (ents ++ [(key, root c1)]), (root c1), (f key).
      split_and!; [done| | |done|done|].
      * split_and!; [done| |rewrite length_app; simpl in *; lia].
        rewrite Hf. symmetry. apply bool_decide_eq_true_2.
        rewrite length_app. simpl in *. lia.
      * apply elem_of_app. right. left.
      * intros Hvals. split; [|done]. unfold lru_vals in *.
        apply Forall_cons in Hvals as [_ Hvals].
        apply Forall_app. split; [|by apply Forall_singleton].
        eapply Forall_forall. intros e He.
        eapply Forall_forall in Hvals; [|done].
        pose proof Hrep1 as ((Hnd & _) & _). simpl in Hnd.
        apply NoDup_cons in Hnd as [Hnr [Hna _]%NoDup_cons].
        assert (e.2 ∈ ents.*2) as He2 by (apply list_elem_of_fmap; by exists e).
        rewrite Hold; [by rewrite Hh1|done|done|done| |].
        -- intros Heq. apply Hnr. right. by rewrite <-Heq.
        -- intros Heq. apply Hna. by rewrite <-Heq.
Qed.

Lemma lru_calls_alone_vals maxsize (f : K → V) keys c ents :
  (0 < maxsize)%Z → lru_state maxsize c ents → lru_vals f c ents →
  ∃ ents',
    let res := lru_calls_alone (E:=E) maxsize f keys c in
    lru_state maxsize res.1 ents' ∧ lru_vals f res.1 ents' ∧
    res.2.*2 = (λ k, Return (f k)) <$> keys.
Proof.
  intros Hpos. revert c ents. induction keys as [|k keys IH]; intros c ents Hst Hvals.
  - exists ents. by split_and!.
  - simpl.
    destruct (lru_call_alone_stored maxsize f k c ents Hpos Hst)
      as (ents1 & a & v & Hret & Hst1 & _ & _ & _ & Hv).
    destruct (Hv Hvals) as [Hvals1 ->].
    destruct (lru_call_alone maxsize f k c) as [c1 r]. simpl in Hret, Hst1, Hvals1.
    destruct (IH _ _ Hst1 Hvals1) as (ents2 & Hst2 & Hvals2 & Hrets).
    destruct (lru_calls_alone maxsize f keys c1) as [c2 rs].
    exists ents2. simpl in *. split_and!; [done|done|by f_equal].
Qed.

Lemma lru_call_alone_counters maxsize (f : K → V) key c :
  let res := lru_call_alone (E:=E) maxsize f key c in
  misses res.1 = misses c + (if res.2.1 then 0 else 1) ∧
  hits res.1 = hits c + (if res.2.1 then 1 else 0).
Proof.
  unfold lru_call_alone, lru_call.
  destruct (local_cache c !! key); simpl; [lia|].
  match goal with |- context [lru_resume ?m ?k ?o ?c'] =>
    destruct (lru_resume_counters (E:=E) m k o c') as [Hh Hm];
    destruct (lru_resume m k o c') as [c2 r] end.
  simpl in *. lia.
Qed.

Lemma lru_calls_alone_counters maxsize (f : K → V) keys c :
  let res := lru_calls_alone (E:=E) maxsize f keys c in
  misses res.1 = misses c + invocations res.2 ∧
  hits res.1 + misses res.1 = hits c + misses c + length keys.
Proof.
  revert c. induction keys as [|k keys IH]; intros c; simpl.
  - unfold invocations. simpl. lia.
  - pose proof (lru_call_alone_counters maxsize f k c) as [Hm Hh].
    destruct (lru_call_alone maxsize f k c) as [c1 [hit r]]. simpl in Hm, Hh.
    specialize (IH c1). destruct (lru_calls_alone maxsize f keys c1) as [c2 rs].
    simpl in *. destruct IH as [IHm IHh]. unfold invocations in *.
    destruct hit.
    + rewrite filter_cons_False by (simpl; congruence). lia.
    + rewrite filter_cons_True by done. simpl. lia.
Qed.

(** X6. Memoization is transparent: calls that run one after the other return
    what [user_function] returns for their keys, whether they hit or miss;
    every link holds the result for its key; [user_function] is awaited once
    for each miss, and [misses] counts exactly these. *)
Theorem lru_memo (maxsize : Z) (user_function : K → V) (keys : list K) :
  (0 < maxsize)%Z →
  let res := lru_calls_alone (E:=E) maxsize user_function keys new_closure in
  res.2.*2 = (λ k, Return (user_function k)) <$> keys ∧
  (∀ k a, local_cache res.1 !! k = Some a →
          link_result_field (heap res.1 !!! a) = user_function k) ∧
  misses res.1 = invocations res.2 ∧
  hits res.1 = length keys - invocations res.2.
Proof.
  intros Hpos res.
  destruct (lru_calls_alone_vals maxsize user_function keys new_closure []
              Hpos (lru_state_new maxsize Hpos)) as (ents & Hst & Hvals & Hret).
  { constructor. }
  fold res in Hst, Hvals, Hret.
  pose proof (lru_calls_alone_counters maxsize user_function keys new_closure)
    as [Hm Hh]. fold res in Hm, Hh. simpl in Hm, Hh.
  split_and!; [done| |lia|lia].
  intros k a Hk. destruct Hst as (Hrep & _).
  apply (lru_rep_lookup _ _ _ _ Hrep) in Hk.
  by apply (proj1 (Forall_forall _ _) Hvals (k, a)).
Qed.


End bounded_alone.

(** ** [test_invalidate_cache] *)

Section test_invalidate.
Context {K : Type} `{Countable K} {V : Type} `{PyNone V} {E : Type}.

(** The calls of the test on the list of keys: the cache is filled, the
    first key is called, a new key, the second key, the first key. *)
Lemma keys_test_invalidate maxsize (k0 k1 k2 kn : K) (l : list K) :
  NoDup (k0 :: k1 :: k2 :: l ++ [kn]) →
  Z.of_nat (length (k0 :: k1 :: k2 :: l)) = maxsize →
  hit_trace maxsize [] ((k0 :: k1 :: k2 :: l) ++ [k0; kn; k1; k0]) =
    replicate (length (k0 :: k1 :: k2 :: l)) false ++ [true; false; false; true] ∧
  foldl (touch maxsize) [] ((k0 :: k1 :: k2 :: l) ++ [k0; kn; k1; k0]) =
    l ++ [kn; k1; k0].
Proof.
  intros Hnd Hlen. simpl in Hlen.
  assert (NoDup (k0 :: k1 :: k2 :: l)) as Hnd'.
  { rewrite !app_comm_cons in Hnd. by apply NoDup_app in Hnd as (? & _). }
  assert (kn ∉ k0 :: k1 :: k2 :: l) as Hkn.
  { rewrite !app_comm_cons in Hnd. apply NoDup_app in Hnd as (_ & Hd & _).
    intros Hin. apply (Hd _ Hin). left. }
  pose proof Hnd' as Hnd0.
  apply NoDup_cons in Hnd' as [Hk0 Hnd1]. pose proof Hnd1 as Hnd1'.
  apply NoDup_cons in Hnd1' as [Hk1 Hnd2].
  repeat setoid_rewrite not_elem_of_cons in Hkn.
  repeat setoid_rewrite not_elem_of_cons in Hk0.
  repeat setoid_rewrite not_elem_of_cons in Hk1.
  destruct Hkn as (Hn0 & Hn1 & Hn2 & Hnl).
  destruct Hk0 as (H01 & H02 & H0l). destruct Hk1 as (H12 & H1l).
  destruct (fill_distinct maxsize [] (k0 :: k1 :: k2 :: l)) as [Hfold Htrace].
  { done. } { simpl. lia. }
  rewrite hit_trace_app, foldl_app, Hfold, Htrace. simpl app.
  assert (touch maxsize (k0 :: k1 :: k2 :: l) k0 = k1 :: k2 :: l ++ [k0]) as E1.
  { by apply (touch_hit maxsize [] k0 (k1 :: k2 :: l)). }
  assert (touch maxsize (k1 :: k2 :: l ++ [k0]) kn = k2 :: l ++ [k0; kn]) as E2.
  { rewrite touch_full.
    - simpl. by rewrite <-(assoc_L (++)).
    - rewrite !not_elem_of_cons, not_elem_of_app, not_elem_of_cons. set_solver.
    - simpl. rewrite length_app. simpl. lia. }
  assert (touch maxsize (k2 :: l ++ [k0; kn]) k1 = l ++ [k0; kn; k1]) as E3.
  { rewrite touch_full.
    - simpl. by rewrite <-(assoc_L (++)).
    - rewrite !not_elem_of_cons, not_elem_of_app, !not_elem_of_cons. set_solver.
    - simpl. rewrite length_app. simpl. lia. }
  assert (touch maxsize (l ++ [k0; kn; k1]) k0 = l ++ [kn; k1; k0]) as E4.
  { rewrite (touch_hit maxsize l k0 [kn; k1]); [done|].
    apply NoDup_app. split_and!; [by apply NoDup_cons in Hnd2 as [_ ?]| |].
    - intros x Hx. rewrite !not_elem_of_cons. split_and!; [| | |by intros ?%elem_of_nil];
        intros ->; done.
    - repeat (apply NoDup_cons; split); rewrite ?not_elem_of_cons;
        [| |by intros ?%elem_of_nil|apply NoDup_nil_2].
      + split_and!; [done|done|by intros ?%elem_of_nil].
      + split; [done|by intros ?%elem_of_nil]. }
  simpl. rewrite E1, E2, E3, E4. split; [|done]. do 4 f_equal.
  rewrite bool_decide_eq_true_2 by left.
  rewrite bool_decide_eq_false_2.
  2:{ rewrite !not_elem_of_cons, not_elem_of_app, not_elem_of_cons. set_solver. }
  rewrite bool_decide_eq_false_2.
  2:{ rewrite !not_elem_of_cons, not_elem_of_app, !not_elem_of_cons. set_solver. }
  rewrite bool_decide_eq_true_2; [done|].
  apply elem_of_app. right. left.
Qed.

(** X8. [test_invalidate_cache] passes for every [maxsize] of at least three, as
    for the 128 it runs with: filling the cache with distinct keys awaits
    the user function once for each, the call with the first key is then a
    hit, the call with a new key and the call with the second key are
    misses, and the last call with the first key is a hit again; the user
    function is awaited [maxsize + 2] times. *)
Theorem test_invalidate_cache_passes (maxsize : Z) (user_function : K → V)
    (k0 k1 k2 kn : K) (l : list K) :
  NoDup (k0 :: k1 :: k2 :: l ++ [kn]) →
  Z.of_nat (length (k0 :: k1 :: k2 :: l)) = maxsize →
  let res := lru_calls_alone (E:=E) maxsize user_function
               ((k0 :: k1 :: k2 :: l) ++ [k0; kn; k1; k0]) new_closure in
  res.2.*1 =
    replicate (length (k0 :: k1 :: k2 :: l)) false ++ [true; false; false; true] ∧
  res.2.*2 = (λ k, Return (user_function k)) <$>
               ((k0 :: k1 :: k2 :: l) ++ [k0; kn; k1; k0]) ∧
  invocations res.2 = length (k0 :: k1 :: k2 :: l) + 2 ∧
  ring_keys res.1 = Some (l ++ [kn; k1; k0]).
Proof.
  intros Hnd Hlen res.
  assert (0 < maxsize)%Z as Hpos by (simpl in Hlen; lia).
  destruct (keys_test_invalidate maxsize k0 k1 k2 kn l Hnd Hlen) as [Htrace Hfold].
  destruct (lru_calls_alone_order (E:=E) maxsize user_function
              ((k0 :: k1 :: k2 :: l) ++ [k0; kn; k1; k0]) new_closure []
              Hpos) as (Hord & Hhits & _).
  { exists []. split; [by apply lru_state_new|done]. }
  fold res in Hord, Hhits. rewrite Htrace in Hhits. rewrite Hfold in Hord.
  destruct (lru_calls_alone_vals (E:=E) maxsize user_function
              ((k0 :: k1 :: k2 :: l) ++ [k0; kn; k1; k0]) new_closure []
              Hpos (lru_state_new maxsize Hpos)) as (ents & _ & _ & Hret).
  { constructor. }
  fold res in Hret.
  split_and!; [done|done| |].
  - unfold invocations.
    assert (∀ rs : list (bool * reply V E),
              length (filter (λ r, r.1 = false) rs) =
              length (filter (λ b, b = false) rs.*1)) as Hcount.
    { induction rs as [|[b r] rs IH]; [done|]. rewrite fmap_cons. simpl fst.
      destruct b.
      - rewrite !filter_cons_False by (simpl; congruence). done.
      - rewrite !filter_cons_True by done. simpl. by rewrite IH. }
    rewrite Hcount, Hhits, filter_app.
    assert (∀ n, filter (λ b, b = false) (replicate n false) = replicate n false)
      as Hrep.
    { induction n as [|n IH]; [done|]. simpl.
      rewrite filter_cons_True by done. by rewrite IH. }
    rewrite Hrep, length_app, length_replicate. done.
  - destruct Hord as (ents' & (Hrep' & _) & <-). by apply lru_rep_keys.
Qed.

End test_invalidate.

(** ** The wrappers without a size limit and without a cache *)

Section other_wrappers.
Context {K : Type} `{Countable K} {V : Type} `{PyNone V} {E : Type}.
Implicit Types (c : closure K V V) (key k : K) (result : V).

Lemma invocations_cons (hit : bool) (r : reply V E) rs :
  invocations ((hit, r) :: rs) = (if hit then 0 else 1) + invocations rs.
Proof.
  unfold invocations. destruct hit.
  - by rewrite filter_cons_False by (simpl; congruence).
  - by rewrite filter_cons_True by done.
Qed.

Lemma unbounded_call_alone_spec (f : K → V) key c :
  (∀ k v, local_cache c !! k = Some v → v = f k) →
  let res := unbounded_call_alone (E:=E) f key c in
  res.2 = (bool_decide (is_Some (local_cache c !! key)), Return (f key)) ∧
  local_cache res.1 = <[key := f key]> (local_cache c) ∧
  misses res.1 = misses c + (if res.2.1 then 0 else 1) ∧
  hits res.1 = hits c + (if res.2.1 then 1 else 0).
Proof.
  intros Hc. unfold unbounded_call_alone, unbounded_call.
  destruct (local_cache c !! key) as [v|] eqn:Hkey; simpl.
  - pose proof (Hc _ _ Hkey) as ->. split_and!; [done| |lia|lia].
    by rewrite insert_id.
  - split_and!; [done|done|lia|lia].
Qed.

Lemma unbounded_calls_alone_spec (f : K → V) keys c :
  (∀ k v, local_cache c !! k = Some v → v = f k) →
  let res := unbounded_calls_alone (E:=E) f keys c in
  res.2.*2 = (λ k, Return (f k)) <$> keys ∧
  (∀ k, local_cache res.1 !! k =
        if bool_decide (k ∈ keys) then Some (f k) else local_cache c !! k) ∧
  size (local_cache res.1) = size (local_cache c) + invocations res.2 ∧
  misses res.1 = misses c + invocations res.2 ∧
  hits res.1 + misses res.1 = hits c + misses c + length keys.
Proof.
  revert c. induction keys as [|key keys IH]; intros c Hc; simpl.
  - unfold invocations. simpl. split_and!; [done|done|lia|lia|lia].
  - destruct (unbounded_call_alone_spec f key c Hc) as (Hr & Hlc & Hm1 & Hh1).
    destruct (unbounded_call_alone f key c) as [c1 [hit r]].
    simpl in Hr, Hlc, Hm1, Hh1. injection Hr as Hhit ->.
    assert (∀ k v, local_cache c1 !! k = Some v → v = f k) as Hc1.
    { intros k v. rewrite Hlc. destruct (decide (k = key)) as [->|Hne].
      - rewrite lookup_insert_eq. congruence.
      - rewrite lookup_insert_ne by done. apply Hc. }
    specialize (IH c1 Hc1). destruct (unbounded_calls_alone f keys c1) as [c2 rs].
    simpl in *. destruct IH as (Hret & Hlook & Hsize & Hm & Hh).
    rewrite !invocations_cons. split_and!; [by f_equal|intros k| |lia|destruct hit; lia].
    + rewrite Hlook, Hlc. destruct (decide (k = key)) as [->|Hne].
      * rewrite lookup_insert_eq.
        rewrite (bool_decide_eq_true_2 (key ∈ key :: keys)) by left.
        by destruct (bool_decide (key ∈ keys)).
      * rewrite lookup_insert_ne by done.
        assert (bool_decide (k ∈ key :: keys) = bool_decide (k ∈ keys)) as ->; [|done].
        apply bool_decide_ext. rewrite elem_of_cons.
        split; [by intros [?|?]|by right].
    + rewrite Hsize, Hlc. subst hit.
      destruct (local_cache c !! key) as [v|] eqn:Hv.
      * rewrite bool_decide_eq_true_2 by done.
        rewrite map_size_insert_Some by (by rewrite Hv). lia.
      * rewrite bool_decide_eq_false_2 by (by intros [? ?]).
        rewrite map_size_insert_None by done. lia.
Qed.

(** X9. Without a size limit nothing is ever recomputed: calls that run one
    after the other return what [user_function] returns for their keys; the
    dictionary holds exactly the keys that were called, each with the result
    for it; and [user_function] is awaited once for each distinct key, which
    is what [misses] and [currsize] count. *)
Theorem unbounded_memo (user_function : K → V) (keys : list K) :
  let res := unbounded_calls_alone (E:=E) user_function keys new_closure in
  res.2.*2 = (λ k, Return (user_function k)) <$> keys ∧
  (∀ k, local_cache res.1 !! k =
        if bool_decide (k ∈ keys) then Some (user_function k) else None) ∧
  invocations res.2 = length (remove_dups keys) ∧
  misses res.1 = invocations res.2 ∧
  size (local_cache res.1) = invocations res.2 ∧
  hits res.1 = length keys - invocations res.2.
Proof.
  intros res.
  destruct (unbounded_calls_alone_spec user_function keys new_closure)
    as (Hret & Hlook & Hsize & Hm & Hh).
  { intros k v. simpl. by rewrite lookup_empty. }
  fold res in Hret, Hlook, Hsize, Hm, Hh. simpl in Hlook, Hsize, Hm, Hh.
  rewrite map_size_empty in Hsize.
  assert (∀ k, local_cache res.1 !! k =
               if bool_decide (k ∈ keys) then Some (user_function k) else None)
    as Hlook'.
  { intros k. rewrite Hlook. by rewrite lookup_empty. }
  split_and!; [done|done| |lia|lia|lia].
  assert (invocations res.2 = size (local_cache res.1)) as -> by lia.
  assert (dom (local_cache res.1) = list_to_set (remove_dups keys)) as Hdom.
  { apply set_eq. intros k.
    rewrite elem_of_dom, elem_of_list_to_set, elem_of_remove_dups, Hlook'.
    case_bool_decide; split; done. }
  rewrite <-size_dom, Hdom. apply size_list_to_set, NoDup_remove_dups.
Qed.

Lemma unbounded_step_dom c (ev : event K V E) :
  ev ≠ EvClear → dom (local_cache c) ⊆ dom (local_cache (unbounded_step c ev)).
Proof.
  intros Hev. destruct ev as [key|key out|]; [| |done]; simpl.
  - unfold unbounded_call. by destruct (local_cache c !! key).
  - destruct out as [result|e]; simpl; [|done]. apply dom_insert_subseteq.
Qed.

(** X10. Without a size limit nothing is ever dropped but by [cache_clear]:
    however the calls interleave, a key that is in the dictionary stays in
    it, and [currsize] does not go down. *)
Theorem unbounded_never_evicts (evs1 evs2 : list (event K V E)) :
  no_clear evs2 →
  (∀ k, is_Some (local_cache (unbounded_run evs1) !! k) →
        is_Some (local_cache (unbounded_run (evs1 ++ evs2)) !! k)) ∧
  size (local_cache (unbounded_run evs1)) ≤
    size (local_cache (unbounded_run (evs1 ++ evs2))).
Proof.
  intros Hno. unfold unbounded_run. rewrite foldl_app.
  generalize (foldl unbounded_step new_closure evs1). intros c.
  assert (dom (local_cache c) ⊆ dom (local_cache (foldl unbounded_step c evs2)))
    as Hsub.
  { revert c. induction Hno as [|ev evs2 Hev Hno IH]; intros c; [done|]. simpl.
    etrans; [by apply unbounded_step_dom|apply IH]. }
  split.
  - intros k Hk. apply elem_of_dom. apply Hsub. by apply elem_of_dom.
  - rewrite <-!size_dom. by apply subseteq_size.
Qed.

Lemma disabled_calls_alone_spec {X} (f : K → V) keys (c0 : closure K V X) :
  let res := disabled_calls_alone (E:=E) f keys c0 in
  res.2 = (λ k, (false, Return (f k))) <$> keys ∧
  local_cache res.1 = local_cache c0.
Proof.
  revert c0. induction keys as [|key keys IH]; intros c0; [done|]. simpl.
  unfold disabled_call_alone. simpl.
  match goal with |- context [disabled_calls_alone f keys ?c1] =>
    specialize (IH c1);
    destruct (disabled_calls_alone f keys c1) as [c2 rs] end.
  simpl in *. destruct IH as [-> ->]. done.
Qed.

(** X11. With [maxsize] 0 nothing is ever stored: whatever ran before, the
    dictionary is empty, every call is a miss that awaits [user_function]
    and returns its result, and the dictionary is empty afterwards. *)
Theorem disabled_never_caches {X} (evs : list (event K V E))
    (user_function : K → V) (keys : list K) :
  let c := disabled_run (X:=X) evs in
  let res := disabled_calls_alone (E:=E) user_function keys c in
  local_cache c = ∅ ∧
  res.2 = (λ k, (false, Return (user_function k))) <$> keys ∧
  invocations res.2 = length keys ∧
  local_cache res.1 = ∅ ∧
  ci_currsize (cache_info (Some 0%Z) res.1) = 0.
Proof.
  intros c res.
  assert (local_cache c = ∅) as Hc.
  { unfold c, disabled_run. induction evs as [|ev evs IH] using rev_ind; [done|].
    rewrite foldl_app. simpl. destruct ev as [key|key [result|e]|]; done. }
  destruct (disabled_calls_alone_spec user_function keys c) as [Hres Hempty].
  fold res in Hres, Hempty. rewrite Hc in Hempty.
  split_and!; [done|done| |done|].
  - rewrite Hres. clear. induction keys as [|key keys IH]; [done|].
    by rewrite fmap_cons, invocations_cons, IH.
  - unfold cache_info. simpl. by rewrite Hempty, map_size_empty.
Qed.

(** X12. Calls are not joined: while a key is not in the dictionary, every call
    with it is a miss that awaits [user_function], however many calls with
    this key are waiting already; each of them counts as a miss and none
    changes the dictionary. *)
Theorem calls_are_not_joined (key : K) (n : nat)
    (b : closure K V addr) (u : closure K V V) :
  local_cache b !! key = None → local_cache u !! key = None →
  ((lru_call key (lru_calls_begun key n b)).2 = Await ∧
   misses (lru_calls_begun key n b) = misses b + n ∧
   local_cache (lru_calls_begun key n b) = local_cache b) ∧
  ((unbounded_call key (unbounded_calls_begun key n u)).2 = Await ∧
   misses (unbounded_calls_begun key n u) = misses u + n ∧
   local_cache (unbounded_calls_begun key n u) = local_cache u).
Proof.
  intros Hb Hu. split.
  - assert (misses (lru_calls_begun key n b) = misses b + n ∧
            local_cache (lru_calls_begun key n b) = local_cache b) as [Hm Hlc].
    { induction n as [|n [IHm IHlc]]; [simpl; split; [lia|done]|].
      unfold lru_calls_begun in *. simpl. unfold lru_call at 1 3.
      rewrite IHlc, Hb. simpl. split; [lia|done]. }
    split_and!; [|done|done]. unfold lru_call. by rewrite Hlc, Hb.
  - assert (misses (unbounded_calls_begun key n u) = misses u + n ∧
            local_cache (unbounded_calls_begun key n u) = local_cache u) as [Hm Hlc].
    { induction n as [|n [IHm IHlc]]; [simpl; split; [lia|done]|].
      unfold unbounded_calls_begun in *. simpl. unfold unbounded_call at 1 3.
      rewrite IHlc, Hu. simpl. split; [lia|done]. }
    split_and!; [|done|done]. unfold unbounded_call. by rewrite Hlc, Hu.
Qed.

End other_wrappers.

(** ** [lru_cache] and [cache] *)

Section decorator.
Context {K : Type} `{Countable K} {V : Type} `{PyNone V} {E : Type}.

Lemma wrapper_calls_alone_results (maxsize : option Z) (f : K → V) keys :
  (∀ n, select_strategy maxsize = BoundedLRU n → (0 < n)%Z) →
  (wrapper_calls_alone (E:=E) maxsize f keys).*2 = (λ k, Return (f k)) <$> keys.
Proof.
  intros Hpos. unfold wrapper_calls_alone.
  destruct (select_strategy maxsize) as [| |n] eqn:Hs.
  - destruct (disabled_calls_alone_spec (E:=E) (X:=unit) f keys new_closure)
      as [-> _].
    rewrite <-list_fmap_compose. done.
  - destruct (unbounded_calls_alone_spec (E:=E) f keys new_closure) as (Hret & _).
    { intros k v. simpl. by rewrite lookup_empty. }
    done.
  - specialize (Hpos n eq_refl).
    destruct (lru_calls_alone_vals (E:=E) n f keys new_closure [] Hpos
                (lru_state_new n Hpos)) as (ents & _ & _ & Hret).
    { constructor. }
    done.
Qed.

(** X13. [lru_cache] raises [TypeError] exactly when [maxsize] is neither an
    [int], nor [None], nor a callable that comes with a [bool] for [typed].
    Otherwise the wrapper it leads to has [typed] as it was passed and: no
    cache exactly for an [int] that is not positive; no size limit exactly
    for [None]; and the size limited cache with a positive limit, which is
    the [int] passed or 128 for a function decorated directly. *)
Theorem lru_cache_builds (maxsize : maxsize_arg) (typed : typed_arg) :
  (wrapper_parameters (lru_cache maxsize typed) = None ↔
   maxsize = MaxOther ∨ (maxsize = MaxCallable ∧ ∃ t, typed = TypedOther t)) ∧
  ∀ p, wrapper_parameters (lru_cache maxsize typed) = Some p →
       cp_typed p = typed ∧
       match select_strategy (cp_maxsize p) with
       | Disabled => ∃ n, maxsize = MaxInt n ∧ (n ≤ 0)%Z ∧ cp_maxsize p = Some 0%Z
       | Unbounded => maxsize = MaxNone
       | BoundedLRU m =>
           (0 < m)%Z ∧ cp_maxsize p = Some m ∧
           (maxsize = MaxInt m ∨ (maxsize = MaxCallable ∧ m = 128%Z))
       end.
Proof.
  split.
  - destruct maxsize as [n| | |], typed as [b|t]; simpl; split;
      try (intros [?|[? [? ?]]]; done); try done; intros _;
      first [by left|by (right; split; [|exists t])].
  - intros p Hp. destruct maxsize as [n| | |]; simpl in Hp.
    + injection Hp as <-. simpl. split; [done|].
      destruct (n <? 0)%Z eqn:Hneg; simpl.
      * exists n. split_and!; [done|lia|done].
      * destruct (n =? 0)%Z eqn:Hzero.
        -- exists n. split_and!; [done|lia|]. f_equal. lia.
        -- split_and!; [lia|done|by left].
    + injection Hp as <-. done.
    + destruct typed as [b|t]; [|done]. injection Hp as <-. simpl.
      split_and!; [done|lia|done|right; done].
    + done.
Qed.

(** X14. Whatever [lru_cache] was given, if it leads to a wrapper, then calls of
    the wrapper that come one after the other return what [user_function]
    returns for their keys. *)
Theorem decorated_returns_results (maxsize : maxsize_arg) (typed : typed_arg)
    (p : cache_parameters) (user_function : K → V) (keys : list K) :
  wrapper_parameters (lru_cache maxsize typed) = Some p →
  (wrapper_calls_alone (E:=E) (cp_maxsize p) user_function keys).*2 =
    (λ k, Return (user_function k)) <$> keys.
Proof.
  intros Hp. apply wrapper_calls_alone_results. intros n Hn.
  destruct maxsize as [m| | |]; simpl in Hp.
  - injection Hp as <-. simpl in Hn.
    destruct (m <? 0)%Z eqn:Hneg; simpl in Hn; [done|].
    destruct (m =? 0)%Z eqn:Hzero; [done|]. injection Hn as <-. lia.
  - injection Hp as <-. done.
  - destruct typed as [b|t]; [|done]. injection Hp as <-. simpl in Hn.
    injection Hn as <-. lia.
  - done.
Qed.

(** X15. [cache] leads to the wrapper without a size limit, and calls of it that
    come one after the other await [user_function] once for each distinct
    key, whatever the number of calls. *)
Theorem cache_awaits_once_per_key (user_function : K → V) (keys : list K) :
  ∃ p, wrapper_parameters cache = Some p ∧
       select_strategy (cp_maxsize p) = Unbounded ∧
       let rs := wrapper_calls_alone (E:=E) (cp_maxsize p) user_function keys in
       rs.*2 = (λ k, Return (user_function k)) <$> keys ∧
       invocations rs = length (remove_dups keys).
Proof.
  eexists. split; [reflexivity|]. split; [reflexivity|].
  unfold wrapper_calls_alone. simpl.
  destruct (unbounded_calls_alone_spec (E:=E) user_function keys new_closure)
    as (Hret & Hlook & Hsize & _).
  { intros k v. simpl. by rewrite lookup_empty. }
  split; [done|].
  set (res := unbounded_calls_alone (E:=E) user_function keys new_closure) in *.
  simpl in Hsize. rewrite map_size_empty in Hsize.
  assert (invocations res.2 = size (local_cache res.1)) as -> by lia.
  assert (dom (local_cache res.1) = list_to_set (remove_dups keys)) as Hdom.
  { apply set_eq. intros k.
    rewrite elem_of_dom, elem_of_list_to_set, elem_of_remove_dups, Hlook.
    simpl. rewrite lookup_empty. case_bool_decide; split; done. }
  rewrite <-size_dom, Hdom. apply size_list_to_set, NoDup_remove_dups.
Qed.

End decorator.

(** ** How often the user function is awaited *)

Section invocation_bounds.
Context {K : Type} `{Countable K} {V : Type} `{PyNone V} {E : Type}.

Lemma invocations_trace (rs : list (bool * reply V E)) :
  invocations rs = length (filter (λ b, b = false) rs.*1).
Proof.
  induction rs as [|[b r] rs IH]; [done|].
  rewrite invocations_cons, fmap_cons. simpl fst. destruct b.
  - by rewrite filter_cons_False by (simpl; congruence).
  - rewrite filter_cons_True by done. simpl. by rewrite IH.
Qed.

Lemma touch_hit_set maxsize (ks : list K) k :
  NoDup ks → k ∈ ks →
  NoDup (touch maxsize ks k) ∧ length (touch maxsize ks k) = length ks ∧
  list_to_set (touch maxsize ks k) =@{gset K} list_to_set ks.
Proof.
  intros Hnd Hin. apply list_elem_of_split in Hin as (l1 & l2 & ->).
  rewrite touch_hit by done.
  assert (l1 ++ l2 ++ [k] ≡ₚ l1 ++ k :: l2) as Hperm.
  { apply Permutation_app_head. by rewrite (comm (++)). }
  split_and!.
  - by rewrite Hperm.
  - by rewrite Hperm.
  - by rewrite Hperm.
Qed.

Lemma misses_bounds maxsize (ks keys : list K) :
  (0 < maxsize)%Z → NoDup ks → (Z.of_nat (length ks) ≤ maxsize)%Z →
  let n := length (filter (λ b, b = false) (hit_trace maxsize ks keys)) in
  let distinct := size (list_to_set (ks ++ keys) : gset K) in
  distinct ≤ n + length ks ∧
  ((Z.of_nat distinct ≤ maxsize)%Z → n + length ks = distinct).
Proof.
  intros Hpos. revert ks. induction keys as [|k keys IH]; intros ks Hnd Hlen; simpl.
  - rewrite app_nil_r, size_list_to_set by done. lia.
  - destruct (decide (k ∈ ks)) as [Hin|Hout].
    + rewrite bool_decide_eq_true_2 by done.
      rewrite filter_cons_False by (simpl; congruence).
      destruct (touch_hit_set maxsize ks k Hnd Hin) as (Hnd' & Hlen' & Hset).
      specialize (IH (touch maxsize ks k) Hnd'). rewrite Hlen' in IH.
      specialize (IH Hlen). simpl in IH.
      assert (list_to_set (ks ++ k :: keys) =@{gset K}
              list_to_set (touch maxsize ks k ++ keys)) as ->; [|done].
      rewrite !list_to_set_app_L, Hset, list_to_set_cons.
      assert (k ∈ (list_to_set ks : gset K)) as Hel by (by apply elem_of_list_to_set).
      apply set_eq. intros x. rewrite !elem_of_union, elem_of_singleton.
      split; [intros [?|[->|?]]; auto|intros [?|?]; auto].
    + rewrite bool_decide_eq_false_2 by done.
      rewrite filter_cons_True by done. simpl length.
      destruct (decide (Z.of_nat (length ks) < maxsize)%Z) as [Hfree|Hfull].
      * rewrite touch_fresh by done.
        specialize (IH (ks ++ [k])). rewrite length_app in IH. simpl in IH.
        rewrite <-(assoc_L (++)) in IH. simpl in IH.
        destruct IH as [IH1 IH2].
        { apply NoDup_app. split_and!; [done| |apply NoDup_singleton].
          intros x Hx ->%list_elem_of_singleton. done. }
        { lia. }
        split; [lia|]. intros Hfit. specialize (IH2 Hfit). lia.
      * rewrite touch_full by done.
        destruct ks as [|k0 t]; [simpl in *; lia|]. simpl tail.
        apply NoDup_cons in Hnd as [Hk0 Hnd].
        specialize (IH (t ++ [k])). rewrite length_app in IH. simpl in IH, Hlen.
        rewrite <-(assoc_L (++)) in IH. simpl in IH.
        destruct IH as [IH1 _].
        { apply NoDup_app. split_and!; [done| |apply NoDup_singleton].
          intros x Hx ->%list_elem_of_singleton. apply Hout. by right. }
        { lia. }
        simpl in Hfull.
        assert (size (list_to_set ((k0 :: t) ++ k :: keys) : gset K) ≤
                1 + size (list_to_set (t ++ k :: keys) : gset K)) as Hle.
        { simpl. rewrite size_union_alt, size_singleton.
          apply Nat.add_le_mono_l, subseteq_size.
          by intros x [? _]%elem_of_difference. }
        split; [simpl in *; lia|]. intros Hfit.
        assert (S (length (k0 :: t)) ≤ size (list_to_set ((k0 :: t) ++ k :: keys) : gset K))
          as Hmore.
        { trans (size (list_to_set (k :: k0 :: t) : gset K)).
          - rewrite size_list_to_set; [simpl; lia|].
            apply NoDup_cons. split; [done|]. by apply NoDup_cons.
          - apply subseteq_size. intros x.
            rewrite !elem_of_list_to_set, elem_of_app, !elem_of_cons.
            intros [->|[->|?]]; auto. }
        simpl in *. lia.
Qed.

(** X16. Every distinct key costs at least one await of [user_function], and when
    the distinct keys all fit into the cache it costs exactly one: as long
    as no more than [maxsize] distinct keys are called, the size limited
    cache recomputes nothing. *)
Theorem lru_invocations_bounds (maxsize : Z) (user_function : K → V)
    (keys : list K) :
  (0 < maxsize)%Z →
  let res := lru_calls_alone (E:=E) maxsize user_function keys new_closure in
  length (remove_dups keys) ≤ invocations res.2 ≤ length keys ∧
  ((Z.of_nat (length (remove_dups keys)) ≤ maxsize)%Z →
   invocations res.2 = length (remove_dups keys)).
Proof.
  intros Hpos res.
  destruct (lru_calls_alone_order (E:=E) maxsize user_function keys new_closure []
              Hpos) as (_ & Hhits & _).
  { exists []. split; [by apply lru_state_new|done]. }
  fold res in Hhits.
  destruct (misses_bounds maxsize [] keys Hpos) as [Hlow Hfit].
  { apply NoDup_nil_2. } { simpl. lia. }
  simpl in Hlow, Hfit. rewrite <-Hhits, <-invocations_trace in Hlow, Hfit.
  assert (size (list_to_set keys : gset K) = length (remove_dups keys)) as Hsize.
  { rewrite <-(size_list_to_set (C:=gset K)) by apply NoDup_remove_dups.
    f_equal. apply set_eq. intros k.
    by rewrite !elem_of_list_to_set, elem_of_remove_dups. }
  rewrite Hsize in Hlow, Hfit.
  pose proof (lru_calls_alone_counters (E:=E) maxsize user_function keys new_closure)
    as [Hm Hh]. fold res in Hm, Hh. simpl in Hm, Hh.
  split; [lia|]. intros Hle. specialize (Hfit Hle). lia.
Qed.

End invocation_bounds.

(** ** Keys as dictionary keys *)

Section key_hashing.
Context {obj : Type} `{PyObject obj}.

(** X17. Keys that compare equal hash alike, as a dictionary needs it: when equal
    tuples have equal hashes, two [_HashedSeq] keys made by [_make_key] that
    are equal have the same [__hash__], whenever it is asked for. *)
Theorem equal_keys_hash_alike args1 kwds1 args2 kwds2 typed1 typed2 n1 n2
    (s t : _HashedSeq obj) :
  (∀ xs ys, list_eq xs ys = true → py_hash xs = py_hash ys) →
  (_make_key args1 kwds1 typed1 n1).1 = Hashed s →
  (_make_key args2 kwds2 typed2 n2).1 = Hashed t →
  key_eq (Hashed s) (Hashed t) = true →
  ∀ m1 m2, (HashedSeq_hash s m1).1 = (HashedSeq_hash t m2).1.
Proof.
  intros Hlaw Hs Ht Heq m1 m2.
  assert (∀ args kwds typed n (u : _HashedSeq obj),
            (_make_key args kwds typed n).1 = Hashed u →
            hash_value u = py_hash (hs_items u)) as Hinv.
  { intros args kwds typed n u Hu.
    destruct (unwrapped args kwds typed) eqn:Hun.
    - apply unwrapped_inv in Hun as (-> & -> & x & -> & Hx).
      by rewrite make_key_bare in Hu.
    - rewrite make_key_wrapped in Hu by done. simpl in Hu. by injection Hu as <-. }
  simpl. rewrite (Hinv _ _ _ _ _ Hs), (Hinv _ _ _ _ _ Ht).
  by apply Hlaw.
Qed.

End key_hashing.

(** ** The further properties at concrete inputs *)


Lemma lru_run_keys_witness :
  let c := lru_run (E:=unit) 2
             [EvCall 1%Z; EvCall 2%Z; EvResume 2%Z (Returned 20%Z);
              EvResume 1%Z (Returned 10%Z); EvCall 2%Z; EvCall 3%Z;
              EvResume 3%Z (Returned 30%Z)] in
  ring_keys c = Some [2; 3]%Z ∧ is_hit 1%Z c = false ∧ is_hit 2%Z c = true.
Proof.
  intros c.
  pose proof (lru_run_keys (K:=Z) (V:=Z) (E:=unit) 2
                [EvCall 1%Z; EvCall 2%Z; EvResume 2%Z (Returned 20%Z);
                 EvResume 1%Z (Returned 10%Z); EvCall 2%Z; EvCall 3%Z;
                 EvResume 3%Z (Returned 30%Z)] ltac:(lia)) as Hrun.
  cbv zeta in Hrun. destruct Hrun as (Hkeys & _ & _ & Hhit & _).
  split; [exact Hkeys|]. split; [exact (Hhit 1%Z)|exact (Hhit 2%Z)].
Defined.


Lemma no_clear_no_leak_witness :
  length (heap (lru_run (E:=unit) 1
                  [EvCall 1%Z; EvResume 1%Z (Returned 10%Z);
                   EvCall 2%Z; EvResume 2%Z (Returned 20%Z)])) = 2.
Proof.
  destruct (no_clear_no_leak (K:=Z) (V:=Z) (E:=unit) 1
              [EvCall 1%Z; EvResume 1%Z (Returned 10%Z);
               EvCall 2%Z; EvResume 2%Z (Returned 20%Z)]
              ltac:(lia) ltac:(repeat constructor; discriminate)) as [Hlen _].
  exact Hlen.
Defined.

Lemma lru_memo_witness :
  let res := lru_calls_alone (E:=unit) 2 times_ten [1; 2; 1; 3; 2]%Z new_closure in
  res.2.*2 = [Return 10; Return 20; Return 10; Return 30; Return 20]%Z ∧
  misses res.1 = invocations res.2.
Proof.
  intros res.
  pose proof (lru_memo (K:=Z) (V:=Z) (E:=unit) 2 times_ten [1; 2; 1; 3; 2]%Z
                ltac:(lia)) as Hmemo.
  cbv zeta in Hmemo. destruct Hmemo as (Hret & _ & Hmiss & _).
  split; [exact Hret|exact Hmiss].
Defined.


(** The test as it is run: [maxsize] is 128, the keys are 0 to 127. *)
Lemma test_invalidate_cache_passes_witness :
  let keys := Z.of_nat <$> seq 0 128 in
  let res := lru_calls_alone (E:=unit) 128 times_ten
               (keys ++ [0; 128; 1; 0]%Z) new_closure in
  res.2.*1 = replicate 128 false ++ [true; false; false; true] ∧
  invocations res.2 = 130.
Proof.
  intros keys res.
  pose proof (test_invalidate_cache_passes (K:=Z) (V:=Z) (E:=unit) 128 times_ten
                0%Z 1%Z 2%Z 128%Z (Z.of_nat <$> seq 3 125)
                ltac:(decided) ltac:(vm_compute; reflexivity)) as Htest.
  cbv zeta in Htest. destruct Htest as (Htrace & _ & Hcount & _).
  split; [exact Htrace|exact Hcount].
Defined.

Lemma unbounded_never_evicts_witness :
  is_Some (local_cache
             (unbounded_run (E:=unit)
                [EvCall 1%Z; EvResume 1%Z (Returned 10%Z); EvCall 2%Z;
                 EvResume 2%Z (Returned 20%Z); EvCall 1%Z]) !! 1%Z).
Proof.
  destruct (unbounded_never_evicts (K:=Z) (V:=Z) (E:=unit)
              [EvCall 1%Z; EvResume 1%Z (Returned 10%Z)]
              [EvCall 2%Z; EvResume 2%Z (Returned 20%Z); EvCall 1%Z]
              ltac:(repeat constructor; discriminate)) as [Hstay _].
  apply (Hstay 1%Z). exists 10%Z. vm_compute. reflexivity.
Defined.

Lemma calls_are_not_joined_witness :
  (lru_call 1%Z (lru_calls_begun 1%Z 3 (new_closure : closure Z Z addr))).2 = Await ∧
  misses (lru_calls_begun 1%Z 3 (new_closure : closure Z Z addr)) = 3 ∧
  misses (unbounded_calls_begun 1%Z 3 (new_closure : closure Z Z Z)) = 3.
Proof.
  destruct (calls_are_not_joined (K:=Z) (V:=Z) 1%Z 3 new_closure new_closure
              ltac:(vm_compute; reflexivity) ltac:(vm_compute; reflexivity))
    as ((Hawait & Hb & _) & (_ & Hu & _)).
  exact (conj Hawait (conj Hb Hu)).
Defined.

Lemma lru_cache_builds_witness :
  wrapper_parameters (lru_cache MaxCallable (TypedOther true)) = None ∧
  (0 < 128)%Z ∧
  select_strategy (cp_maxsize (CacheParameters (Some 128%Z) (TypedBool false))) =
    BoundedLRU 128.
Proof.
  destruct (lru_cache_builds MaxCallable (TypedOther true)) as [[_ Herr] _].
  destruct (lru_cache_builds MaxCallable (TypedBool false)) as [_ Hok].
  destruct (Hok (CacheParameters (Some 128%Z) (TypedBool false)) eq_refl)
    as (_ & Hpos & _).
  split; [|split; [exact Hpos|reflexivity]].
  apply Herr. right. split; [reflexivity|]. by exists true.
Defined.

Lemma decorated_returns_results_witness :
  (wrapper_calls_alone (E:=unit) (Some 128%Z) times_ten [1; 2; 1]%Z).*2 =
    [Return 10; Return 20; Return 10]%Z.
Proof.
  exact (decorated_returns_results (K:=Z) (V:=Z) (E:=unit)
           MaxCallable (TypedBool false)
           (CacheParameters (Some 128%Z) (TypedBool false))
           times_ten [1; 2; 1]%Z eq_refl).
Defined.

Lemma lru_invocations_bounds_witness :
  invocations
    (lru_calls_alone (E:=unit) 2 times_ten [1; 2; 1; 2; 1]%Z new_closure).2 = 2.
Proof.
  pose proof (lru_invocations_bounds (K:=Z) (V:=Z) (E:=unit) 2 times_ten
                [1; 2; 1; 2; 1]%Z ltac:(lia)) as Hbounds.
  cbv zeta in Hbounds. destruct Hbounds as [_ Hfit].
  exact (Hfit ltac:(vm_compute; discriminate)).
Defined.

Lemma small_hash_respects_eq (xs ys : list small_obj) :
  list_eq xs ys = true → py_hash xs = py_hash ys.
Proof.
  change (@py_hash small_obj small_py) with small_hash. unfold small_hash.
  revert ys. induction xs as [|x xs IH]; intros [|y ys]; simpl; try done.
  intros [Hxy Hrest]%andb_true_iff. rewrite (IH ys Hrest).
  assert (small_hash1 x = small_hash1 y) as ->; [|done].
  destruct x as [a|a|a|a|], y as [b|b|b|b|]; simpl in *; try done.
  - by apply Z.eqb_eq in Hxy.
  - by apply Z.eqb_eq in Hxy.
  - apply Z.eqb_eq in Hxy. done.
  - by apply eqb_prop in Hxy as ->.
  - by apply bool_decide_eq_true_1 in Hxy as ->.
  - by apply bool_decide_eq_true_1 in Hxy as ->.
Qed.

Lemma equal_keys_hash_alike_witness :
  (HashedSeq_hash
     (HashedSeq [OBool true; OStr "a"] (py_hash [OBool true; OStr "a"])) 0).1 =
  (HashedSeq_hash
     (HashedSeq [OInt 1; OStr "a"] (py_hash [OInt 1; OStr "a"])) 7).1.
Proof.
  exact (equal_keys_hash_alike
           [OBool true; OStr "a"] [] [OInt 1; OStr "a"] [] false false 0 0
           (HashedSeq [OBool true; OStr "a"] (py_hash [OBool true; OStr "a"]))
           (HashedSeq [OInt 1; OStr "a"] (py_hash [OInt 1; OStr "a"]))
           small_hash_respects_eq eq_refl eq_refl eq_refl 0 7).
Defined.
